(** * A shallow embedding of the component orchestrator of go-dependency-graph

    Sources: [component/component.go] (the component record, here
    src/unnamed/part_002) and [component/system.go] (the orchestrator, here
    src/unnamed/part_001).

    Modelling choices:
    - A value of the Go interface type [Lifecycle] is an object identity
      ([nat]); what its [Start] and [Stop] methods do is given by an
      environment [Env] that may depend on the receiver, the context and the
      whole history of lifecycle calls made so far.
    - Every call of a lifecycle method is recorded in a log of [event]s
      kept in the system state, together with the answer it gave.
    - Go maps are stdpp [gmap]s. A [range] over a Go map has an unspecified
      order: every such loop iterates over an explicit list of keys, and
      the theorems quantify over every permutation of the keys.
    - [map[string]bool] lookups default to [false] ([flag]) and
      [map[string]int] lookups default to [0] ([zget]).
    - The printing of elapsed times has no effect on the state and is left
      out. The mutexes are left out: every operation runs under its lock. *)

From Stdlib Require Import ZArith.
From stdpp Require Import base gmap strings list sorting relations.

(** ** Values, errors, lifecycle calls *)

Definition Lifecycle := nat.

(** The errors built by [fmt.Errorf]; [%w] wrapping is a constructor
    argument. [ErrNilComponent] stands for the nil dereference of
    [s.components[name]] on a name that is not registered (a panic). *)
Inductive error : Type :=
  | ErrLifecycle (code : nat)
  | ErrComponentStart (cause : error)
  | ErrComponentStop (cause : error)
  | ErrDependencyNotFound (dep name : string)
  | ErrDependencyNotStarted (dep name : string)
  | ErrFailedToStart (name : string) (cause : error)
  | ErrFailedToStop (name : string) (cause : error)
  | ErrCyclicInvolving (name : string)
  | ErrCyclic
  | ErrNilComponent (name : string).

(** [Context] is [map[string]Lifecycle]. *)
Abbreviation Context := (gmap string Lifecycle).

(** The answer of [Lifecycle.Start]: a result, or an error (the result
    returned next to a non-nil error is discarded by [Component.Start]). *)
Inductive start_outcome : Type :=
  | StartOk (v : Lifecycle)
  | StartErr (e : error).

(** A lifecycle call: the key of the component record making it, the
    receiver, the context passed, and the answer. *)
Inductive event : Type :=
  | EvStart (k : string) (self : Lifecycle) (ctx : Context) (out : start_outcome)
  | EvStop (k : string) (self : Lifecycle) (ctx : Context) (out : option error).

Record Env : Type := MkEnv {
  lc_start : Lifecycle -> Context -> list event -> start_outcome;
  lc_stop : Lifecycle -> Context -> list event -> option error
}.

(** ** The component record (component.go) *)

Record Component : Type := MkComponent {
  key : string;
  instance : Lifecycle;
  dependencies : list string;
  result : option Lifecycle;
  started : bool
}.

Definition Define (k : string) (inst : Lifecycle) (deps : list string) : Component :=
  MkComponent k inst deps None false.

Definition IsStarted (c : Component) : bool := started c.

Definition GetDependencies (c : Component) : list string := dependencies c.

(** [func (c *Component) Start(ctx Context) (Lifecycle, error)] *)
Definition Component_Start (env : Env) (c : Component) (ctx : Context)
    (tr : list event) : start_outcome * Component * list event :=
  if started c then (StartOk (instance c), c, tr)
  else
    let out := lc_start env (instance c) ctx tr in
    let tr' := tr ++ [EvStart (key c) (instance c) ctx out] in
    match out with
    | StartErr e => (StartErr (ErrComponentStart e), c, tr')
    | StartOk v =>
        (StartOk v, MkComponent (key c) (instance c) (dependencies c) (Some v) true, tr')
    end.

(** [func (c *Component) Stop(ctx Context) error] *)
Definition Component_Stop (env : Env) (c : Component) (ctx : Context)
    (tr : list event) : option error * Component * list event :=
  if negb (started c) then (None, c, tr)
  else
    let out := lc_stop env (instance c) ctx tr in
    let tr' := tr ++ [EvStop (key c) (instance c) ctx out] in
    match out with
    | Some e => (Some (ErrComponentStop e), c, tr')
    | None =>
        (None, MkComponent (key c) (instance c) (dependencies c) (result c) false, tr')
    end.

(** ** The orchestrator (system.go) *)

Record System : Type := MkSystem {
  components : gmap string Component;
  sys_started : bool;
  context : Context;
  log : list event
}.

Definition CreateSystem (comps : gmap string Component) : System :=
  MkSystem comps false ∅ [].

(** The dependency lists, as read through [GetDependencies]. *)
Definition dep_graph (comps : gmap string Component) : gmap string (list string) :=
  GetDependencies <$> comps.

Definition flag (m : gmap string bool) (k : string) : bool := default false (m !! k).

Definition zget (m : gmap string Z) (k : string) : Z := default 0%Z (m !! k).

(** *** Cycle detection *)

Abbreviation dfs_result := (bool * gmap string bool * gmap string bool)%type.

(** The loop over the dependencies in [isCyclic]; [rec] is the recursive
    call. *)
Fixpoint isCyclic_deps (rec : string -> gmap string bool -> gmap string bool -> dfs_result)
    (g : gmap string (list string)) (name : string) (deps : list string)
    (visited recStack : gmap string bool) : dfs_result :=
  match deps with
  | [] => (false, visited, <[name := false]> recStack)
  | dep :: rest =>
      match g !! dep with
      | None => isCyclic_deps rec g name rest visited recStack
      | Some _ =>
          if negb (flag visited dep) then
            let '(b, v, r) := rec dep visited recStack in
            if b then (true, v, r) else isCyclic_deps rec g name rest v r
          else if flag recStack dep then (true, visited, recStack)
          else isCyclic_deps rec g name rest visited recStack
      end
  end.

(** [isCyclic], with a recursion depth bound; every call is made on a
    name not yet visited, so [size g] is never exhausted ([fuel] 0 is
    unreachable). *)
Fixpoint isCyclic (g : gmap string (list string)) (fuel : nat) (name : string)
    (visited recStack : gmap string bool) : dfs_result :=
  match fuel with
  | 0 => (true, visited, recStack)
  | S fuel' =>
      isCyclic_deps (isCyclic g fuel') g name (default [] (g !! name))
        (<[name := true]> visited) (<[name := true]> recStack)
  end.

Fixpoint checkCyclic_loop (g : gmap string (list string)) (names : list string)
    (visited recStack : gmap string bool) : option error :=
  match names with
  | [] => None
  | name :: rest =>
      if negb (flag visited name) then
        let '(b, v, r) := isCyclic g (size g) name visited recStack in
        if b then Some (ErrCyclicInvolving name) else checkCyclic_loop g rest v r
      else checkCyclic_loop g rest visited recStack
  end.

(** [checkCyclicDependencies]; [order] is the order of [range s.components]. *)
Definition checkCyclicDependencies (g : gmap string (list string))
    (order : list string) : option error :=
  checkCyclic_loop g order ∅ ∅.

(** *** Topological ordering *)

Fixpoint add_edges (g : gmap string (list string)) (name : string) (deps : list string)
    (graph : gmap string (list string)) (inDegree : gmap string Z)
    : (gmap string (list string) * gmap string Z) + error :=
  match deps with
  | [] => inl (graph, inDegree)
  | dep :: rest =>
      match g !! dep with
      | None => inr (ErrDependencyNotFound dep name)
      | Some _ =>
          add_edges g name rest (<[dep := default [] (graph !! dep) ++ [name]]> graph)
            (<[name := (zget inDegree name + 1)%Z]> inDegree)
      end
  end.

Fixpoint build_graph (g : gmap string (list string)) (names : list string)
    (graph : gmap string (list string)) (inDegree : gmap string Z)
    : (gmap string (list string) * gmap string Z) + error :=
  match names with
  | [] => inl (graph, inDegree)
  | name :: rest =>
      match add_edges g name (default [] (g !! name)) graph inDegree with
      | inr e => inr e
      | inl (gr, d) => build_graph g rest gr d
      end
  end.

(** The seeding loop [for name, degree := range inDegree]. *)
Definition sources (names : list string) (inDegree : gmap string Z) : list string :=
  filter (fun n => zget inDegree n = 0%Z) names.

(** [sort.Strings]. *)
Definition sort_strings (l : list string) : list string := merge_sort String.le l.

(** The loop over [graph[current]]. *)
Fixpoint relax (neighbors : list string) (inDegree : gmap string Z)
    (queue : list string) : gmap string Z * list string :=
  match neighbors with
  | [] => (inDegree, queue)
  | n :: rest =>
      let d := (zget inDegree n - 1)%Z in
      relax rest (<[n := d]> inDegree) (if decide (d = 0%Z) then queue ++ [n] else queue)
  end.

Record kahn_state : Type := KState {
  queue : list string;
  emitted : list string;
  degrees : gmap string Z
}.

(** One iteration of [for len(queue) > 0]. *)
Definition kahn_step (graph : gmap string (list string)) (st : kahn_state) : kahn_state :=
  match sort_strings (queue st) with
  | [] => st
  | current :: rest =>
      let '(d, q) := relax (default [] (graph !! current)) (degrees st) rest in
      KState q (emitted st ++ [current]) d
  end.

(** The loop runs at most [size g] times: every name enters the queue at
    most once. *)
Fixpoint kahn_loop (graph : gmap string (list string)) (fuel : nat)
    (st : kahn_state) : kahn_state :=
  match fuel with
  | 0 => st
  | S f =>
      match queue st with
      | [] => st
      | _ :: _ => kahn_loop graph f (kahn_step graph st)
      end
  end.

(** [getOrderedComponents]; [edge_order] is the order of the range that
    fills the graph, [seed_order] the order of the range over [inDegree]. *)
Definition getOrderedComponents (g : gmap string (list string))
    (edge_order seed_order : list string) : list string + error :=
  match build_graph g edge_order ((fun _ => []) <$> g) ((fun _ => 0%Z) <$> g) with
  | inr e => inr e
  | inl (graph, inDegree) =>
      let st := kahn_loop graph (size g) (KState (sources seed_order inDegree) [] inDegree) in
      if decide (length (emitted st) = size g) then inl (emitted st) else inr ErrCyclic
  end.

(** *** Start and Stop *)

(** The orders of the map ranges of one [Start] or [Stop] call. *)
Record Iter : Type := MkIter {
  it_check : list string;
  it_edges : list string;
  it_seed : list string
}.

(** The loop over [component.GetDependencies()] building [ctx]. *)
Fixpoint dependency_context (comps : gmap string Component) (name : string)
    (deps : list string) (ctx : Context) : Context + error :=
  match deps with
  | [] => inl ctx
  | dep :: rest =>
      match comps !! dep with
      | None => inr (ErrDependencyNotFound dep name)
      | Some dc =>
          if negb (IsStarted dc) then inr (ErrDependencyNotStarted dep name)
          else dependency_context comps name rest (<[dep := instance dc]> ctx)
      end
  end.

(** The loop [for _, name := range orderedComponents] of [Start]. *)
Fixpoint start_components (env : Env) (order : list string) (s : System)
    : option error * System :=
  match order with
  | [] => (None, s)
  | name :: rest =>
      match components s !! name with
      | None => (Some (ErrNilComponent name), s)
      | Some c =>
          match dependency_context (components s) name (GetDependencies c) ∅ with
          | inr e => (Some e, s)
          | inl ctx =>
              let '(out, c', tr) := Component_Start env c ctx (log s) in
              let comps' := <[name := c']> (components s) in
              match out with
              | StartErr e => (Some (ErrFailedToStart name e), MkSystem comps' (sys_started s) (context s) tr)
              | StartOk v =>
                  start_components env rest
                    (MkSystem comps' (sys_started s) (<[name := v]> (context s)) tr)
              end
          end
      end
  end.

(** [func (s *System) Start() error] *)
Definition System_Start (env : Env) (it : Iter) (s : System) : option error * System :=
  if sys_started s then (None, s)
  else
    let g := dep_graph (components s) in
    match checkCyclicDependencies g (it_check it) with
    | Some e => (Some e, s)
    | None =>
        match getOrderedComponents g (it_edges it) (it_seed it) with
        | inr e => (Some e, s)
        | inl order =>
            match start_components env order s with
            | (Some e, s') => (Some e, s')
            | (None, s') => (None, MkSystem (components s') true (context s') (log s'))
            end
        end
    end.

(** The loop over the reversed order in [Stop]. *)
Fixpoint stop_components (env : Env) (order : list string) (s : System)
    (lastErr : option error) : option error * System :=
  match order with
  | [] => (lastErr, s)
  | name :: rest =>
      match components s !! name with
      | None => (Some (ErrNilComponent name), s)
      | Some c =>
          let '(err, c', tr) := Component_Stop env c (context s) (log s) in
          stop_components env rest
            (MkSystem (<[name := c']> (components s)) (sys_started s) (context s) tr)
            (match err with
             | Some e => Some (ErrFailedToStop name e)
             | None => lastErr
             end)
      end
  end.

(** [func (s *System) Stop() error] *)
Definition System_Stop (env : Env) (it : Iter) (s : System) : option error * System :=
  if negb (sys_started s) then (None, s)
  else
    match getOrderedComponents (dep_graph (components s)) (it_edges it) (it_seed it) with
    | inr e => (Some e, s)
    | inl order =>
        let '(err, s') := stop_components env (reverse order) s None in
        (err, MkSystem (components s') false (context s') (log s'))
    end.

(** The copy loop [for k, v := range s.context { ctx[k] = v }];
    [entries] is the order of that range. *)
Fixpoint copy_context (entries : list (string * Lifecycle)) (ctx : Context) : Context :=
  match entries with
  | [] => ctx
  | (k, v) :: rest => copy_context rest (<[k := v]> ctx)
  end.

(** [func (s *System) GetContext() Context]; [entries] is the order of the
    range over [s.context] (a permutation of its entries). *)
Definition GetContext (s : System) (entries : list (string * Lifecycle)) : Context :=
  copy_context entries ∅.

(** ** Concrete systems *)

Definition env_ok : Env := MkEnv (fun self _ _ => StartOk self) (fun _ _ _ => None).

Definition abc : gmap string Component :=
  <["compA" := Define "compA" 1 []]> (<["compB" := Define "compB" 2 ["compA"]]>
    (<["compC" := Define "compC" 3 ["compA"; "compB"]]> ∅)).

Definition cyc : gmap string Component :=
  <["compA" := Define "compA" 1 ["compC"]]> (<["compB" := Define "compB" 2 ["compA"]]>
    (<["compC" := Define "compC" 3 ["compB"]]> ∅)).

Definition it_of (l : list string) : Iter := MkIter l l l.

(** A lifecycle whose [Start] returns another value than its receiver. *)
Definition env_plus6 : Env :=
  MkEnv (fun self _ _ => StartOk (self + 6)) (fun _ _ _ => None).

(** Lifecycles where the one with identity 2 fails to start, or to stop. *)
Definition env_start_fail2 : Env :=
  MkEnv (fun self _ _ => if decide (self = 2) then StartErr (ErrLifecycle 5) else StartOk self)
        (fun _ _ _ => None).
Definition env_stop_fail2 : Env :=
  MkEnv (fun self _ _ => StartOk self)
        (fun self _ _ => if decide (self = 2) then Some (ErrLifecycle 9) else None).

Definition abc_names : list string := ["compA"; "compB"; "compC"].

Definition ab : gmap string Component :=
  <["A" := Define "A" 1 []]> (<["B" := Define "B" 2 ["A"]]> ∅).

(** ["A"] declares the unregistered name ["Z"]. *)
Definition missing_z : gmap string Component :=
  <["A" := Define "A" 1 ["Z"]]> (<["B" := Define "B" 2 ["A"]]> ∅).

(** A missing dependency next to a cycle between ["A"] and ["B"]. *)
Definition cyc_missing : gmap string Component :=
  <["A" := Define "A" 1 ["B"; "Z"]]> (<["B" := Define "B" 2 ["A"]]> ∅).

(** The demo program (cmd/demo/main.go) with the example lifecycles of
    examples/components.go. The objects [new(examples.Config)],
    [new(examples.AppRoutes)] and [new(examples.HttpServer)] are the
    identities 1, 2 and 3; the dynamic type of a [Lifecycle] value is
    known from its identity, so the type assertions of [configObj] to a
    Config pointer and of [appRoutesObj] to an AppRoutes pointer succeed
    on the identities 1 and 2. *)
Definition demo : gmap string Component :=
  <["config" := Define "config" 1 []]>
    (<["app_routes" := Define "app_routes" 2 []]>
      (<["http_server" := Define "http_server" 3 ["app_routes"; "config"]]> ∅)).

(** [HttpServer.Start]: the four early returns, numbered 1 to 4 in source
    order; [Config.Start] and [AppRoutes.Start] return their receiver.
    Every [Stop] is left open: [HttpServer.Stop] returns what
    [Server.Close] returns. *)
Definition httpserver_start (ctx : Context) : start_outcome :=
  match ctx !! "config" with
  | None => StartErr (ErrLifecycle 1)
  | Some configObj =>
      match ctx !! "app_routes" with
      | None => StartErr (ErrLifecycle 2)
      | Some appRoutesObj =>
          if decide (configObj ≠ 1) then StartErr (ErrLifecycle 3)
          else if decide (appRoutesObj ≠ 2) then StartErr (ErrLifecycle 4)
          else StartOk 3
      end
  end.

Definition env_demo (stop : Lifecycle → Context → list event → option error) : Env :=
  MkEnv (fun self ctx _ => if decide (self = 3) then httpserver_start ctx else StartOk self) stop.

Definition demo_names : list string := ["app_routes"; "config"; "http_server"].

(** ** Vocabulary of the claims *)

(** The registered names, and the orders a Go [range] may produce. *)
Definition keys (g : gmap string (list string)) : list string := elements (dom g).

Definition iter_ok (g : gmap string (list string)) (it : Iter) : Prop :=
  it_check it ≡ₚ keys g ∧ it_edges it ≡ₚ keys g ∧ it_seed it ≡ₚ keys g.

(** [x] declares [d] as a dependency and [d] is registered. *)
Definition edge (g : gmap string (list string)) (x d : string) : Prop :=
  ∃ ds, g !! x = Some ds ∧ d ∈ ds ∧ d ∈ dom g.

Definition has_cycle (g : gmap string (list string)) : Prop := ∃ x, tc (edge g) x x.

(** Some declared dependency name is not registered. *)
Definition missing_dependency (g : gmap string (list string)) : Prop :=
  ∃ x ds d, g !! x = Some ds ∧ d ∈ ds ∧ d ∉ dom g.

(** The graph with the edges to unregistered names removed. *)
Definition prune (g : gmap string (list string)) : gmap string (list string) :=
  (fun ds => filter (fun d => d ∈ dom g) ds) <$> g.

(** Bookkeeping of the depth-first search. *)
Definition sub_stack (vis rs : gmap string bool) : Prop :=
  ∀ y, flag rs y = true → flag vis y = true.
Definition grows (vis vis' : gmap string bool) : Prop :=
  ∀ y, flag vis y = true → flag vis' y = true.
Definition finished_acc (g : gmap string (list string)) (vis rs : gmap string bool) : Prop :=
  ∀ y, flag vis y = true → flag rs y = false → Acc (flip (edge g)) y.
Definition on_path (g : gmap string (list string)) (rs : gmap string bool) (cur : string) : Prop :=
  ∀ y, flag rs y = true → rtc (edge g) y cur.
Definition unvisited (g : gmap string (list string)) (vis : gmap string bool) : nat :=
  length (filter (fun k => flag vis k = false) (keys g)).

(** Vocabulary of the topological ordering. *)
Definition deps_of (g : gmap string (list string)) (x : string) : list string :=
  default [] (g !! x).

(** Every declared dependency name is registered. *)
Definition deps_registered (g : gmap string (list string)) : Prop :=
  ∀ x d, d ∈ deps_of g x → d ∈ dom g.

(** Occurrences of [x] in [l]. *)
Definition occ (x : string) (l : list string) : nat := length (filter (fun y => y = x) l).

(** Occurrences of dependencies of [x] not among [p]. *)
Definition pending (g : gmap string (list string)) (p : list string) (x : string) : nat :=
  length (filter (fun d => d ∉ p) (deps_of g x)).

(** [x] may be emitted after [p]: registered, not emitted, and every
    dependency emitted (in-degree zero). *)
Definition ready (g : gmap string (list string)) (p : list string) (x : string) : Prop :=
  x ∈ dom g ∧ (x ∉ p) ∧ (∀ d, d ∈ deps_of g x → d ∈ p).

(** [l] continues [p] by emitting, at every step, the lexicographically
    smallest ready name, until no name is ready. *)
Inductive lex_greedy (g : gmap string (list string)) : list string → list string → Prop :=
  | lex_greedy_done p : (∀ x, ¬ ready g p x) → lex_greedy g p []
  | lex_greedy_step p x l :
      ready g p x → (∀ y, ready g p y → String.le x y) →
      lex_greedy g (p ++ [x]) l → lex_greedy g p (x :: l).

(** Every name comes after all of its dependencies. *)
Definition topological (g : gmap string (list string)) (l : list string) : Prop :=
  ∀ j x d, l !! j = Some x → d ∈ deps_of g x → ∃ i, i < j ∧ l !! i = Some d.

Definition adj_ok (g graph : gmap string (list string)) : Prop :=
  ∀ d x, occ x (default [] (graph !! d)) = occ d (deps_of g x).

Definition deg_ok (g : gmap string (list string)) (inDegree : gmap string Z) : Prop :=
  ∀ x, zget inDegree x = Z.of_nat (length (deps_of g x)).

Record kahn_inv (g : gmap string (list string)) (st : kahn_state) : Prop := {
  ki_res_nodup : NoDup (emitted st);
  ki_res_dom : ∀ x, x ∈ emitted st → x ∈ dom g;
  ki_res_closed : ∀ x d, x ∈ emitted st → d ∈ deps_of g x → d ∈ emitted st;
  ki_q_nodup : NoDup (queue st);
  ki_q_ready : ∀ x, x ∈ queue st ↔ ready g (emitted st) x;
  ki_deg : ∀ x, x ∈ dom g → x ∉ emitted st →
    zget (degrees st) x = Z.of_nat (pending g (emitted st) x)
}.

(** Vocabulary of the system-level claims. *)

(** The fields of a record that no operation changes. *)
Definition shape (c : Component) : string * Lifecycle * list string :=
  (key c, instance c, dependencies c).

Definition same_shape (m m' : gmap string Component) : Prop :=
  ∀ n, shape <$> m !! n = shape <$> m' !! n.

(** Every record is stored under its own key. *)
Definition wf_keys (m : gmap string Component) : Prop :=
  map_Forall (fun n c => key c = n) m.

Definition started_in (m : gmap string Component) (x : string) : bool :=
  match m !! x with Some c => started c | None => false end.

Definition unstart (c : Component) : Component :=
  MkComponent (key c) (instance c) (dependencies c) (result c) false.

(** The context [ctx] holds exactly the declared dependencies of [c], each
    bound to the wrapped instance of its record in [m]. *)
Definition ctx_exact (m : gmap string Component) (c : Component) (ctx : Context) : Prop :=
  (∀ d, d ∈ dependencies c → is_Some (m !! d)) ∧
  ∀ d, ctx !! d = if decide (d ∈ dependencies c) then instance <$> m !! d else None.

(** A call of the lifecycle [Start] of a record of [m], with the exact
    dependency context. *)
Definition start_event_in (m : gmap string Component) (ev : event) : Prop :=
  ∃ k c ctx out, m !! k = Some c ∧ ev = EvStart (key c) (instance c) ctx out ∧ ctx_exact m c ctx.

Definition ev_key (ev : event) : string :=
  match ev with EvStart k _ _ _ => k | EvStop k _ _ _ => k end.

Definition is_start_ok (ev : event) : bool :=
  match ev with EvStart _ _ _ (StartOk _) => true | _ => false end.

(** The keys of the records whose lifecycle [Start] was called. *)
Definition start_keys (tr : list event) : list string :=
  omap (fun ev => match ev with EvStart k _ _ _ => Some k | _ => None end) tr.

(** The keys of the records whose lifecycle [Stop] succeeded, or failed. *)
Definition stop_ok_keys (tr : list event) : list string :=
  omap (fun ev => match ev with EvStop k _ _ None => Some k | _ => None end) tr.
Definition stop_failures (tr : list event) : list string :=
  omap (fun ev => match ev with EvStop k _ _ (Some _) => Some k | _ => None end) tr.

(** The most recent failed [Stop] of [tr], wrapped with its key, or [last]. *)
Definition last_stop_error (last : option error) (tr : list event) : option error :=
  foldl (fun acc ev => match ev with
                       | EvStop k _ _ (Some e) => Some (ErrFailedToStop k (ErrComponentStop e))
                       | _ => acc
                       end) last tr.

(** The states a system created from [m0] reaches through [Start] and [Stop]
    calls, whatever their lifecycles do. *)
Inductive reachable (m0 : gmap string Component) : System → Prop :=
  | reach_init : reachable m0 (CreateSystem m0)
  | reach_start env it s :
      reachable m0 s → iter_ok (dep_graph (components s)) it →
      reachable m0 (System_Start env it s).2
  | reach_stop env it s :
      reachable m0 s → iter_ok (dep_graph (components s)) it →
      reachable m0 (System_Stop env it s).2.

(** ** Cycle detection *)

Section Dfs.
Context (g : gmap string (list string)).

Lemma flag_insert (m : gmap string bool) k b y :
  flag (<[k := b]> m) y = if decide (k = y) then b else flag m y.
Proof. unfold flag. rewrite lookup_insert. by case_decide. Qed.

Lemma flag_empty y : flag ∅ y = false.
Proof. unfold flag. by rewrite lookup_empty. Qed.

Lemma filter_length_mono (P Q : string → Prop) `{∀ x, Decision (P x)} `{∀ x, Decision (Q x)}
    (l : list string) :
  (∀ x, Q x → P x) → length (filter Q l) ≤ length (filter P l).
Proof.
  intros HQP. induction l as [|a l IH]; [done|].
  rewrite !filter_cons. repeat case_decide; simpl; naive_solver lia.
Qed.

Lemma filter_length_strict (P Q : string → Prop) `{∀ x, Decision (P x)} `{∀ x, Decision (Q x)}
    (l : list string) x :
  (∀ x, Q x → P x) → x ∈ l → P x → ¬ Q x → length (filter Q l) < length (filter P l).
Proof.
  intros HQP Hx HP HQ. induction l as [|a l IH]; [set_solver|].
  rewrite !filter_cons. apply elem_of_cons in Hx as [->|Hx].
  - repeat case_decide; try done. simpl.
    pose proof (filter_length_mono P Q l HQP). lia.
  - specialize (IH Hx). pose proof (filter_length_mono P Q l HQP).
    repeat case_decide; simpl; try lia; naive_solver.
Qed.

Lemma keys_length : length (keys g) = size g.
Proof. unfold keys. change (size (dom g) = size g). apply size_dom. Qed.

Lemma unvisited_mono vis vis' : grows vis vis' → unvisited g vis' ≤ unvisited g vis.
Proof.
  intros Hg. apply filter_length_mono.
  intros x Hx. destruct (flag vis x) eqn:E; [|done]. rewrite (Hg x E) in Hx. done.
Qed.

Lemma unvisited_le vis : unvisited g vis ≤ size g.
Proof. rewrite <- keys_length. apply length_filter. Qed.

Lemma unvisited_pos vis name : name ∈ dom g → flag vis name = false → 0 < unvisited g vis.
Proof.
  intros Hd Hf. unfold unvisited.
  assert (name ∈ filter (fun k => flag vis k = false) (keys g)) as Hin.
  { apply list_elem_of_filter. split; [done|]. unfold keys. by apply elem_of_elements. }
  destruct (filter _ _); [set_solver|simpl; lia].
Qed.

Lemma unvisited_visit vis vis' name :
  name ∈ dom g → flag vis name = false → grows vis vis' → flag vis' name = true →
  unvisited g vis' < unvisited g vis.
Proof.
  intros Hd Hf Hg Ht. apply (filter_length_strict _ _ _ name).
  - intros x Hx. destruct (flag vis x) eqn:E; [|done]. rewrite (Hg x E) in Hx. done.
  - unfold keys. by apply elem_of_elements.
  - done.
  - congruence.
Qed.

(** A node that is well founded for the dependency edges is on no cycle. *)
Lemma acc_no_cycle x : Acc (flip (edge g)) x → ¬ tc (edge g) x x.
Proof.
  induction 1 as [x _ IH]. intros Htc.
  inversion Htc as [? ? Hxy | ? y ? Hxy Hyx]; subst.
  - by apply (IH x Hxy).
  - apply (IH y Hxy). by eapply tc_r.
Qed.

(** *** Completeness: when no cycle is reported, every visited name is
    well founded. *)

Lemma isCyclic_deps_complete rec name
    (Hrec : ∀ dep vis rs v r, flag vis dep = false → sub_stack vis rs → finished_acc g vis rs →
       rec dep vis rs = (false, v, r) →
       sub_stack v r ∧ finished_acc g v r ∧ grows vis v ∧ flag v dep = true ∧
       (∀ y, flag r y = flag rs y)) :
  ∀ ds vis rs v r, sub_stack vis rs → finished_acc g vis rs →
  isCyclic_deps rec g name ds vis rs = (false, v, r) →
  (∃ r0, r = <[name := false]> r0 ∧ sub_stack v r0 ∧ finished_acc g v r0 ∧ grows vis v ∧
     (∀ y, flag r0 y = flag rs y)) ∧
  (∀ d, d ∈ ds → d ∈ dom g → Acc (flip (edge g)) d).
Proof.
  induction ds as [|dep ds IH]; intros vis rs v r Hsub Hfin Heq; simpl in Heq.
  - injection Heq as <- <-. split; [|set_solver].
    exists rs. split_and!; try done. by intros y.
  - destruct (g !! dep) eqn:Hg.
    + destruct (flag vis dep) eqn:Hv; simpl in Heq.
      * destruct (flag rs dep) eqn:Hrs; [done|].
        destruct (IH _ _ _ _ Hsub Hfin Heq) as [Hpost Hacc]. split; [done|].
        intros d Hd Hdom. apply elem_of_cons in Hd as [->|Hd]; [by apply Hfin|by apply Hacc].
      * destruct (rec dep vis rs) as [[b1 v1] r1] eqn:Hr.
        destruct b1; [done|].
        destruct (Hrec _ _ _ _ _ Hv Hsub Hfin Hr) as (Hsub1 & Hfin1 & Hg1 & Hdep1 & Hr1).
        destruct (IH _ _ _ _ Hsub1 Hfin1 Heq) as [(r0 & -> & Hs & Hf & Hgr & Hr0) Hacc].
        split.
        -- exists r0. split_and!; try done.
           ++ intros y Hy. by apply Hgr, Hg1.
           ++ intros y. by rewrite Hr0, Hr1.
        -- intros d Hd Hdom. apply elem_of_cons in Hd as [->|Hd]; [|by apply Hacc].
           apply Hfin1; [done|]. rewrite Hr1.
           destruct (flag rs dep) eqn:E; [|done]. rewrite (Hsub _ E) in Hv. done.
    + destruct (IH _ _ _ _ Hsub Hfin Heq) as [Hpost Hacc]. split; [done|].
      intros d Hd Hdom. apply elem_of_cons in Hd as [->|Hd]; [|by apply Hacc].
      apply elem_of_dom in Hdom as [? ?]. congruence.
Qed.

Lemma isCyclic_complete fuel : ∀ name vis rs v r,
  flag vis name = false → sub_stack vis rs → finished_acc g vis rs →
  isCyclic g fuel name vis rs = (false, v, r) →
  sub_stack v r ∧ finished_acc g v r ∧ grows vis v ∧ flag v name = true ∧
  (∀ y, flag r y = flag rs y).
Proof.
  induction fuel as [|fuel IHf]; intros name vis rs v r Hv Hsub Hfin Heq; simpl in Heq; [done|].
  assert (flag rs name = false) as Hrs.
  { destruct (flag rs name) eqn:E; [|done]. rewrite (Hsub _ E) in Hv. done. }
  assert (sub_stack (<[name:=true]> vis) (<[name:=true]> rs)) as Hsub'.
  { intros y. rewrite !flag_insert. case_decide; [done|]. apply Hsub. }
  assert (finished_acc g (<[name:=true]> vis) (<[name:=true]> rs)) as Hfin'.
  { intros y. rewrite !flag_insert. case_decide; [done|]. apply Hfin. }
  destruct (isCyclic_deps_complete (isCyclic g fuel) name IHf _ _ _ _ _ Hsub' Hfin' Heq) as
    [(r0 & -> & Hs & Hf & Hgr & Hr0) Hacc].
  assert (flag v name = true) as Hvn.
  { apply Hgr. rewrite flag_insert. by case_decide. }
  split_and!.
  - intros y. rewrite flag_insert. case_decide; [done|]. apply Hs.
  - intros y Hy. rewrite flag_insert. case_decide as Hny; [subst y|by apply Hf].
    intros _. constructor. intros d (ds & Hds & Hd & Hdom).
    apply Hacc; [|done]. by rewrite Hds.
  - intros y Hy. apply Hgr. rewrite flag_insert. by case_decide.
  - done.
  - intros y. rewrite flag_insert. case_decide; [by subst|].
    rewrite Hr0, flag_insert. by case_decide.
Qed.

Lemma checkCyclic_loop_complete : ∀ names vis rs,
  sub_stack vis rs → finished_acc g vis rs → (∀ y, flag rs y = false) →
  checkCyclic_loop g names vis rs = None →
  ∀ n, n ∈ names → Acc (flip (edge g)) n.
Proof.
  induction names as [|a names IH]; intros vis rs Hsub Hfin Hrs Heq n Hn; [set_solver|].
  simpl in Heq. destruct (flag vis a) eqn:Ha; simpl in Heq.
  - apply elem_of_cons in Hn as [->|Hn]; [by apply Hfin|].
    by eapply (IH vis rs).
  - destruct (isCyclic g (size g) a vis rs) as [[b v] r] eqn:Hc.
    destruct b; [done|].
    destruct (isCyclic_complete _ _ _ _ _ _ Ha Hsub Hfin Hc) as (Hs & Hf & _ & Hva & Hr).
    apply elem_of_cons in Hn as [->|Hn].
    + apply Hf; [done|]. by rewrite Hr.
    + eapply (IH v r); try done. intros y. by rewrite Hr.
Qed.

Lemma checkCyclic_complete order :
  checkCyclicDependencies g order = None → ∀ n, n ∈ order → Acc (flip (edge g)) n.
Proof.
  apply checkCyclic_loop_complete.
  - intros y. by rewrite flag_empty.
  - intros y. by rewrite flag_empty.
  - intros y. apply flag_empty.
Qed.

End Dfs.

Section DfsSound.
Context (g : gmap string (list string)).

(** *** Soundness: a reported cycle exists, and the depth bound [size g]
    is never reached. *)

Lemma isCyclic_deps_sound rec name fuel'
    (Hrec : ∀ dep vis rs b v r, dep ∈ dom g → flag vis dep = false → sub_stack vis rs →
       on_path g rs dep → unvisited g vis ≤ fuel' → rec dep vis rs = (b, v, r) →
       (b = true → has_cycle g) ∧
       (b = false → sub_stack v r ∧ grows vis v ∧ flag v dep = true ∧
          (∀ y, flag r y = flag rs y))) :
  ∀ ds vis rs b v r, (∀ d, d ∈ ds → d ∈ dom g → edge g name d) →
  sub_stack vis rs → on_path g rs name → unvisited g vis ≤ fuel' →
  isCyclic_deps rec g name ds vis rs = (b, v, r) →
  (b = true → has_cycle g) ∧
  (b = false → ∃ r0, r = <[name := false]> r0 ∧ sub_stack v r0 ∧ grows vis v ∧
     (∀ y, flag r0 y = flag rs y)).
Proof.
  induction ds as [|dep ds IH]; intros vis rs b v r Hedge Hsub Hpath Hfuel Heq; simpl in Heq.
  - injection Heq as <- <- <-. split; [done|]. intros _.
    exists rs. split_and!; try done. by intros y.
  - assert (∀ d, d ∈ ds → d ∈ dom g → edge g name d) as Hedge'.
    { intros d Hd. apply Hedge. set_solver. }
    destruct (g !! dep) eqn:Hg.
    + assert (edge g name dep) as Hnd.
      { apply Hedge; [set_solver|]. apply elem_of_dom. eauto. }
      destruct (flag vis dep) eqn:Hv; simpl in Heq.
      * destruct (flag rs dep) eqn:Hrs.
        -- injection Heq as <- <- <-. split; [|done]. intros _.
           exists dep. eapply tc_rtc_l; [by apply Hpath|]. by apply tc_once.
        -- by apply (IH vis rs).
      * assert (dep ∈ dom g) as Hdom by (apply elem_of_dom; eauto).
        destruct (rec dep vis rs) as [[b1 v1] r1] eqn:Hr.
        assert (on_path g rs dep) as Hpd.
        { intros y Hy. eapply rtc_r; [by apply Hpath|done]. }
        destruct (Hrec _ _ _ _ _ _ Hdom Hv Hsub Hpd Hfuel Hr) as [Ht Hf].
        destruct b1.
        -- injection Heq as <- <- <-. split; [|done]. by apply Ht.
        -- destruct (Hf eq_refl) as (Hsub1 & Hg1 & _ & Hr1).
           assert (on_path g r1 name) as Hp1.
           { intros y. rewrite Hr1. apply Hpath. }
           destruct (IH v1 r1 b v r Hedge' Hsub1 Hp1) as [IHt IHf];
             [pose proof (unvisited_mono g _ _ Hg1); lia|done|].
           split; [done|]. intros Hb.
           destruct (IHf Hb) as (r0 & -> & Hs & Hgr & Hr0).
           exists r0. split_and!; try done.
           ++ intros y Hy. by apply Hgr, Hg1.
           ++ intros y. by rewrite Hr0, Hr1.
    + by apply (IH vis rs).
Qed.

Lemma isCyclic_sound fuel : ∀ name vis rs b v r,
  name ∈ dom g → flag vis name = false → sub_stack vis rs → on_path g rs name →
  unvisited g vis ≤ fuel → isCyclic g fuel name vis rs = (b, v, r) →
  (b = true → has_cycle g) ∧
  (b = false → sub_stack v r ∧ grows vis v ∧ flag v name = true ∧ (∀ y, flag r y = flag rs y)).
Proof.
  induction fuel as [|fuel IHf]; intros name vis rs b v r Hdom Hv Hsub Hpath Hfuel Heq.
  { pose proof (unvisited_pos g vis name Hdom Hv). lia. }
  simpl in Heq.
  assert (flag rs name = false) as Hrs.
  { destruct (flag rs name) eqn:E; [|done]. rewrite (Hsub _ E) in Hv. done. }
  assert (sub_stack (<[name:=true]> vis) (<[name:=true]> rs)) as Hsub'.
  { intros y. rewrite !flag_insert. case_decide; [done|]. apply Hsub. }
  assert (on_path g (<[name:=true]> rs) name) as Hpath'.
  { intros y. rewrite flag_insert. case_decide; [subst; intros _; apply rtc_refl|]. apply Hpath. }
  assert (grows vis (<[name:=true]> vis)) as Hgv.
  { intros y. rewrite flag_insert. by case_decide. }
  assert (unvisited g (<[name:=true]> vis) ≤ fuel) as Hfuel'.
  { pose proof (unvisited_visit g vis (<[name:=true]> vis) name Hdom Hv Hgv) as Hlt.
    rewrite flag_insert in Hlt. case_decide; [|done]. specialize (Hlt eq_refl). lia. }
  assert (∀ d, d ∈ default [] (g !! name) → d ∈ dom g → edge g name d) as Hedge.
  { intros d Hd Hd'. apply elem_of_dom in Hdom as [ds Hds]. rewrite Hds in Hd.
    by exists ds. }
  destruct (isCyclic_deps_sound (isCyclic g fuel) name fuel IHf _ _ _ _ _ _ Hedge Hsub' Hpath'
    Hfuel' Heq) as [Ht Hf].
  split; [done|]. intros Hb. destruct (Hf Hb) as (r0 & -> & Hs & Hgr & Hr0).
  split_and!.
  - intros y. rewrite flag_insert. case_decide; [done|]. apply Hs.
  - intros y Hy. by apply Hgr, Hgv.
  - apply Hgr. rewrite flag_insert. by case_decide.
  - intros y. rewrite flag_insert. case_decide; [by subst|].
    rewrite Hr0, flag_insert. by case_decide.
Qed.

Lemma checkCyclic_loop_sound : ∀ names vis rs e,
  (∀ n, n ∈ names → n ∈ dom g) → sub_stack vis rs → (∀ y, flag rs y = false) →
  checkCyclic_loop g names vis rs = Some e → has_cycle g.
Proof.
  induction names as [|a names IH]; intros vis rs e Hnames Hsub Hrs Heq; simpl in Heq; [done|].
  assert (∀ n, n ∈ names → n ∈ dom g) as Hnames' by (intros n Hn; apply Hnames; set_solver).
  destruct (flag vis a) eqn:Ha; simpl in Heq.
  - by eapply (IH vis rs).
  - destruct (isCyclic g (size g) a vis rs) as [[b v] r] eqn:Hc.
    assert (on_path g rs a) as Hp by (intros y; by rewrite Hrs).
    assert (a ∈ dom g) as Hadom by (apply Hnames; set_solver).
    destruct (isCyclic_sound _ _ _ _ _ _ _ Hadom Ha Hsub Hp
      (unvisited_le g vis) Hc) as [Ht Hf].
    destruct b; [by apply Ht|].
    destruct (Hf eq_refl) as (Hs & _ & _ & Hr).
    eapply (IH v r); try done. intros y. by rewrite Hr.
Qed.

Lemma checkCyclic_sound order e :
  (∀ n, n ∈ order → n ∈ dom g) →
  checkCyclicDependencies g order = Some e → has_cycle g.
Proof.
  intros Hn Heq. apply (checkCyclic_loop_sound order ∅ ∅ e Hn); [| |exact Heq].
  - intros y. by rewrite flag_empty.
  - intros y. apply flag_empty.
Qed.

Lemma checkCyclic_loop_error_shape order : ∀ vis rs e,
  checkCyclic_loop g order vis rs = Some e → ∃ n, e = ErrCyclicInvolving n.
Proof.
  induction order as [|a order IH]; intros vis rs e Heq; simpl in Heq; [done|].
  destruct (negb (flag vis a)).
  - destruct (isCyclic g (size g) a vis rs) as [[b v] r].
    destruct b; [inversion Heq; eauto|]. by eapply IH.
  - by eapply IH.
Qed.

Lemma checkCyclic_error_shape order e :
  checkCyclicDependencies g order = Some e → ∃ n, e = ErrCyclicInvolving n.
Proof. apply checkCyclic_loop_error_shape. Qed.

(** On a finite graph, no cycle means every name is well founded. *)
Lemma no_cycle_acc x : ¬ has_cycle g → Acc (flip (edge g)) x.
Proof.
  intros Hnc. destruct (decide (x ∈ dom g)) as [Hx|Hx].
  - destruct (checkCyclicDependencies g (keys g)) as [e|] eqn:Hc.
    + exfalso. apply Hnc. eapply checkCyclic_sound; [|done].
      intros n Hn. unfold keys in Hn. by apply elem_of_elements in Hn.
    + eapply checkCyclic_complete; [done|]. unfold keys. by apply elem_of_elements.
  - constructor. intros d (ds & Hds & _). apply not_elem_of_dom in Hx. congruence.
Qed.

Lemma iter_check_dom (it : Iter) : iter_ok g it → ∀ n, n ∈ it_check it → n ∈ dom g.
Proof.
  intros (Hc & _ & _) n Hn. rewrite Hc in Hn. unfold keys in Hn. by apply elem_of_elements in Hn.
Qed.

End DfsSound.

(** ** Cycle detection ignores unregistered dependencies *)

Section Prune.
Context (g : gmap string (list string)).

Lemma prune_lookup x : prune g !! x = filter (fun d => d ∈ dom g) <$> g !! x.
Proof. unfold prune. by rewrite lookup_fmap. Qed.

Lemma prune_size : size (prune g) = size g.
Proof. unfold prune. apply map_size_fmap. Qed.

Lemma isCyclic_deps_prune rec1 rec2 (Hrec : ∀ d v r, rec1 d v r = rec2 d v r) name :
  ∀ ds vis rs, isCyclic_deps rec1 g name ds vis rs =
    isCyclic_deps rec2 (prune g) name (filter (fun d => d ∈ dom g) ds) vis rs.
Proof.
  induction ds as [|dep ds IH]; intros vis rs; [done|].
  rewrite filter_cons. simpl. case_decide as Hd.
  - apply elem_of_dom in Hd as [ds0 Hds0]. simpl.
    rewrite Hds0, prune_lookup, Hds0. simpl. rewrite Hrec.
    destruct (negb (flag vis dep)).
    + destruct (rec2 dep vis rs) as [[b v] r]. destruct b; [done|]. apply IH.
    + destruct (flag rs dep); [done|]. apply IH.
  - apply not_elem_of_dom in Hd. rewrite Hd. apply IH.
Qed.

Lemma isCyclic_prune fuel : ∀ name vis rs,
  isCyclic g fuel name vis rs = isCyclic (prune g) fuel name vis rs.
Proof.
  induction fuel as [|fuel IH]; intros name vis rs; [done|]. simpl.
  rewrite prune_lookup. rewrite (isCyclic_deps_prune _ _ IH).
  by destruct (g !! name).
Qed.

Lemma checkCyclic_loop_prune names : ∀ vis rs,
  checkCyclic_loop g names vis rs = checkCyclic_loop (prune g) names vis rs.
Proof.
  induction names as [|a names IH]; intros vis rs; [done|]. simpl.
  rewrite prune_size, isCyclic_prune.
  destruct (negb (flag vis a)); [|apply IH].
  destruct (isCyclic (prune g) (size g) a vis rs) as [[b v] r].
  destruct b; [done|]. apply IH.
Qed.

End Prune.

(** ** Counting lemmas *)

Lemma occ_cons x y l : occ x (y :: l) = (if decide (y = x) then 1 else 0) + occ x l.
Proof. unfold occ. rewrite filter_cons. by case_decide. Qed.

Lemma occ_nil x : occ x [] = 0.
Proof. done. Qed.

Lemma occ_app x l1 l2 : occ x (l1 ++ l2) = occ x l1 + occ x l2.
Proof. unfold occ. by rewrite filter_app, length_app. Qed.

Lemma occ_pos x l : 0 < occ x l ↔ x ∈ l.
Proof.
  induction l as [|y l IH]; [unfold occ; simpl; set_solver by lia|].
  rewrite occ_cons, elem_of_cons. case_decide; [subst; split; [auto|lia]|].
  rewrite <- IH. naive_solver lia.
Qed.

Lemma occ_not_in x l : x ∉ l → occ x l = 0.
Proof. rewrite <- occ_pos. lia. Qed.

Lemma filter_not_in_zero (p l : list string) :
  length (filter (fun d => d ∉ p) l) = 0 ↔ ∀ d, d ∈ l → d ∈ p.
Proof.
  induction l as [|y l IH]; [set_solver|].
  rewrite filter_cons. case_decide as Hy; simpl.
  - split; [lia|]. intros Hall. exfalso. apply Hy, Hall. set_solver.
  - rewrite IH. set_solver.
Qed.

Lemma pending_snoc_count (p l : list string) c : c ∉ p →
  length (filter (fun d => d ∉ p ++ [c]) l) + occ c l = length (filter (fun d => d ∉ p) l).
Proof.
  intros Hc. induction l as [|y l IH]; [done|].
  rewrite !filter_cons, occ_cons. repeat case_decide; simpl; set_solver by lia.
Qed.

Lemma occ_le_filter (p l : list string) c : c ∉ p → occ c l ≤ length (filter (fun d => d ∉ p) l).
Proof. intros Hc. rewrite <- (pending_snoc_count p l c Hc). lia. Qed.

Lemma nodup_dom_length (g : gmap string (list string)) (l : list string) :
  NoDup l → (∀ x, x ∈ l → x ∈ dom g) → length l ≤ size g.
Proof.
  intros Hnd Hdom. rewrite <- (keys_length g). apply submseteq_length.
  apply NoDup_submseteq; [done|]. intros x Hx. unfold keys. apply elem_of_elements. by apply Hdom.
Qed.

(** ** Building the graph and the in-degrees *)

Section BuildGraph.
Context (g : gmap string (list string)).

Lemma zget_insert (m : gmap string Z) k v x :
  zget (<[k := v]> m) x = if decide (k = x) then v else zget m x.
Proof. unfold zget. rewrite lookup_insert. by case_decide. Qed.

Lemma adjl_insert (m : gmap string (list string)) k v x :
  default [] (<[k := v]> m !! x) = if decide (k = x) then v else default [] (m !! x).
Proof. rewrite lookup_insert. by case_decide. Qed.

Lemma add_edges_inr name : ∀ ds adj deg e,
  add_edges g name ds adj deg = inr e →
  ∃ d, e = ErrDependencyNotFound d name ∧ d ∈ ds ∧ d ∉ dom g.
Proof.
  induction ds as [|dep ds IH]; intros adj deg e Heq; simpl in Heq; [done|].
  destruct (g !! dep) eqn:Hg.
  - destruct (IH _ _ _ Heq) as (d & -> & Hd & Hnd). exists d. set_solver.
  - injection Heq as <-. exists dep. split_and!; [done|set_solver|].
    by apply not_elem_of_dom.
Qed.

Lemma add_edges_inl name : ∀ ds adj deg adj' deg',
  add_edges g name ds adj deg = inl (adj', deg') →
  (∀ d, d ∈ ds → d ∈ dom g) ∧
  (∀ d x, occ x (default [] (adj' !! d)) =
     occ x (default [] (adj !! d)) + (if decide (x = name) then occ d ds else 0)) ∧
  (∀ x, zget deg' x = (zget deg x + if decide (x = name) then Z.of_nat (length ds) else 0)%Z).
Proof.
  induction ds as [|dep ds IH]; intros adj deg adj' deg' Heq; simpl in Heq.
  - injection Heq as <- <-. split_and!; [set_solver| |].
    + intros d x. unfold occ. simpl. case_decide; simpl; lia.
    + intros x. case_decide; simpl; lia.
  - destruct (g !! dep) eqn:Hg; [|done].
    destruct (IH _ _ _ _ Heq) as (Hreg & Hocc & Hdeg). split_and!.
    + intros d Hd. apply elem_of_cons in Hd as [->|Hd]; [apply elem_of_dom; eauto|auto].
    + intros d x. rewrite Hocc, adjl_insert, occ_cons.
      case_decide as Hdd; rewrite ?occ_app, ?occ_cons, ?occ_nil;
        repeat case_decide; subst; try congruence; lia.
    + intros x. rewrite Hdeg, zget_insert. simpl.
      repeat case_decide; subst; try congruence; lia.
Qed.

Lemma build_graph_inr : ∀ names adj deg e,
  build_graph g names adj deg = inr e →
  ∃ n d, e = ErrDependencyNotFound d n ∧ n ∈ names ∧ d ∈ deps_of g n ∧ d ∉ dom g.
Proof.
  induction names as [|n names IH]; intros adj deg e Heq; simpl in Heq; [done|].
  destruct (add_edges g n (default [] (g !! n)) adj deg) as [[gr d]|e'] eqn:Ha.
  - destruct (IH _ _ _ Heq) as (n' & d' & -> & Hn & Hd & Hnd). exists n', d'. set_solver.
  - injection Heq as <-. destruct (add_edges_inr _ _ _ _ _ Ha) as (d & -> & Hd & Hnd).
    exists n, d. split_and!; [done|set_solver|done|done].
Qed.

Lemma build_graph_inl : ∀ names adj deg adj' deg',
  NoDup names → build_graph g names adj deg = inl (adj', deg') →
  (∀ n d, n ∈ names → d ∈ deps_of g n → d ∈ dom g) ∧
  (∀ d x, occ x (default [] (adj' !! d)) =
     occ x (default [] (adj !! d)) + (if decide (x ∈ names) then occ d (deps_of g x) else 0)) ∧
  (∀ x, zget deg' x =
     (zget deg x + if decide (x ∈ names) then Z.of_nat (length (deps_of g x)) else 0)%Z).
Proof.
  induction names as [|n names IH]; intros adj deg adj' deg' Hnd Heq; simpl in Heq.
  - injection Heq as <- <-. split_and!; [set_solver| |].
    + intros d x. case_decide; [set_solver|lia].
    + intros x. case_decide; [set_solver|lia].
  - apply NoDup_cons in Hnd as [Hn Hnd].
    destruct (add_edges g n (default [] (g !! n)) adj deg) as [[gr d]|e'] eqn:Ha; [|done].
    destruct (add_edges_inl _ _ _ _ _ _ Ha) as (Hreg1 & Hocc1 & Hdeg1).
    destruct (IH _ _ _ _ Hnd Heq) as (Hreg & Hocc & Hdeg). split_and!.
    + intros n' d' Hn' Hd'. apply elem_of_cons in Hn' as [->|Hn']; [by apply Hreg1|eauto].
    + intros d' x. rewrite Hocc, Hocc1. unfold deps_of.
      repeat case_decide; subst; set_solver by lia.
    + intros x. rewrite Hdeg, Hdeg1. unfold deps_of.
      repeat case_decide; subst; set_solver by lia.
Qed.

Lemma iter_perm_elem (l : list string) x : l ≡ₚ keys g → x ∈ l ↔ x ∈ dom g.
Proof. intros Hp. rewrite Hp. unfold keys. by rewrite elem_of_elements. Qed.

Lemma iter_perm_nodup (l : list string) : l ≡ₚ keys g → NoDup l.
Proof. intros Hp. rewrite Hp. unfold keys. apply NoDup_elements. Qed.

Lemma deps_of_not_dom x : x ∉ dom g → deps_of g x = [].
Proof. intros Hx. apply not_elem_of_dom in Hx. unfold deps_of. by rewrite Hx. Qed.

(** With the edges ranged over in any order, the graph and the in-degrees
    hold the dependency counts. *)
Lemma build_graph_spec names :
  names ≡ₚ keys g →
  match build_graph g names ((fun _ => []) <$> g) ((fun _ => 0%Z) <$> g) with
  | inl (graph, inDegree) => deps_registered g ∧ adj_ok g graph ∧ deg_ok g inDegree
  | inr e => ∃ n d, e = ErrDependencyNotFound d n ∧ d ∈ deps_of g n ∧ d ∉ dom g
  end.
Proof.
  intros Hp.
  destruct (build_graph g names _ _) as [[graph inDegree]|e] eqn:Hb.
  - destruct (build_graph_inl _ _ _ _ _ (iter_perm_nodup _ Hp) Hb) as (Hreg & Hocc & Hdeg).
    split_and!.
    + intros x d Hd. destruct (decide (x ∈ dom g)) as [Hx|Hx].
      * apply (Hreg x); [by apply (iter_perm_elem _ _ Hp)|done].
      * rewrite deps_of_not_dom in Hd; [set_solver|done].
    + intros d x. rewrite Hocc, lookup_fmap.
      replace (default [] ((fun _ => []) <$> g !! d)) with (@nil string)
        by (by destruct (g !! d)).
      case_decide as Hx; [done|].
      rewrite deps_of_not_dom; [done|]. by rewrite <- (iter_perm_elem _ _ Hp).
    + intros x. rewrite Hdeg. unfold zget. rewrite lookup_fmap.
      replace (default 0%Z ((fun _ => 0%Z) <$> g !! x)) with 0%Z by (by destruct (g !! x)).
      case_decide as Hx; [lia|].
      rewrite deps_of_not_dom; [done|]. by rewrite <- (iter_perm_elem _ _ Hp).
  - destruct (build_graph_inr _ _ _ _ Hb) as (n & d & -> & _ & Hd & Hnd). eauto.
Qed.

End BuildGraph.

(** ** Kahn's loop *)

Lemma sort_strings_head (l : list string) cur rest :
  sort_strings l = cur :: rest → l ≡ₚ cur :: rest ∧ (∀ y, y ∈ l → String.le cur y).
Proof.
  intros Hs. assert (l ≡ₚ cur :: rest) as Hp.
  { rewrite <- Hs. symmetry. apply merge_sort_Permutation. }
  split; [done|]. intros y Hy. rewrite Hp in Hy.
  pose proof (StronglySorted_merge_sort String.le l) as Hss.
  change (merge_sort String.le l) with (sort_strings l) in Hss. rewrite Hs in Hss.
  apply StronglySorted_inv in Hss as [_ Hall].
  apply elem_of_cons in Hy as [->|Hy]; [done|].
  rewrite Forall_forall in Hall. by apply Hall.
Qed.

Lemma relax_spec (L : list string) : ∀ deg q,
  (∀ x, x ∈ L → (Z.of_nat (occ x L) ≤ zget deg x)%Z) →
  ∃ new, relax L deg q = (fst (relax L deg q), q ++ new) ∧
    (∀ x, zget (fst (relax L deg q)) x = (zget deg x - Z.of_nat (occ x L))%Z) ∧
    NoDup new ∧ (∀ x, x ∈ new ↔ x ∈ L ∧ zget deg x = Z.of_nat (occ x L)).
Proof.
  induction L as [|n L IH]; intros deg q Hle; simpl.
  - exists []. rewrite app_nil_r. split_and!; [done| |constructor|set_solver].
    intros x. rewrite occ_nil. lia.
  - set (d := (zget deg n - 1)%Z).
    assert (∀ x, x ∈ L → (Z.of_nat (occ x L) ≤ zget (<[n := d]> deg) x)%Z) as Hle'.
    { intros x Hx. rewrite zget_insert. specialize (Hle x ltac:(set_solver)).
      rewrite occ_cons in Hle. unfold d. case_decide; subst; lia. }
    destruct (IH (<[n := d]> deg) (if decide (d = 0%Z) then q ++ [n] else q) Hle')
      as (new' & Heq & Hdeg & Hnd & Hnew).
    setoid_rewrite zget_insert in Hnew. setoid_rewrite zget_insert in Hdeg.
    rewrite Heq. destruct (decide (d = 0%Z)) as [Hd|Hd].
    + assert (n ∉ L) as HnL.
      { intros HnL. specialize (Hle' n HnL). rewrite zget_insert in Hle'.
        rewrite decide_True in Hle' by done. apply occ_pos in HnL. lia. }
      assert (n ∉ new') as Hnn by (rewrite Hnew; tauto).
      exists (n :: new'). rewrite <- app_assoc. split_and!; [done| |by constructor|].
      * intros x. rewrite Hdeg, occ_cons. unfold d in *. case_decide; subst; lia.
      * intros x. rewrite elem_of_cons, Hnew, occ_cons, elem_of_cons. unfold d in *.
        destruct (decide (n = x)) as [<-|Hnx].
        -- rewrite (occ_not_in n L HnL). split; [intros _; split; [by left|lia]|by left].
        -- split; [intros [?|?]; [congruence|tauto]|].
           intros [[?|?] ?]; [congruence|]. right. split; [done|lia].
    + exists new'. split_and!; [done| |done|].
      * intros x. rewrite Hdeg, occ_cons. unfold d in *. case_decide; subst; lia.
      * intros x. rewrite Hnew, occ_cons, elem_of_cons. unfold d in *.
        destruct (decide (n = x)) as [<-|Hnx].
        -- split.
           ++ intros [HxL Heq']. split; [by left|lia].
           ++ intros [_ Heq']. destruct (decide (n ∈ L)) as [HnL|HnL].
              ** split; [done|lia].
              ** rewrite (occ_not_in n L HnL) in Heq'. lia.
        -- split.
           ++ intros [HxL Heq']. split; [by right|lia].
           ++ intros [[?|HxL] Heq']; [congruence|]. split; [done|lia].
Qed.

Lemma deps_of_dom (g : gmap string (list string)) x d : d ∈ deps_of g x → x ∈ dom g.
Proof.
  unfold deps_of. intros Hd. destruct (g !! x) eqn:E; [apply elem_of_dom; eauto|set_solver].
Qed.

Lemma ready_snoc (g : gmap string (list string)) p c x :
  ready g (p ++ [c]) x ↔
  x ∈ dom g ∧ (x ∉ p) ∧ x ≠ c ∧ (∀ d, d ∈ deps_of g x → d ∈ p ∨ d = c).
Proof. unfold ready. setoid_rewrite elem_of_app. setoid_rewrite list_elem_of_singleton. naive_solver. Qed.

Section Kahn.
Context (g adj : gmap string (list string)).
Hypothesis Hadj : adj_ok g adj.

Lemma kahn_inv_bound st : kahn_inv g st → length (emitted st) + length (queue st) ≤ size g.
Proof.
  intros Hi. rewrite <- length_app. apply nodup_dom_length.
  - apply NoDup_app. split_and!; [apply Hi| |apply Hi].
    intros x Hx Hq. apply (ki_q_ready _ _ Hi) in Hq as (_ & Hn & _). done.
  - intros x Hx. apply elem_of_app in Hx as [Hx|Hx]; [by apply (ki_res_dom _ _ Hi)|].
    apply (ki_q_ready _ _ Hi) in Hx as (? & _). done.
Qed.

Lemma kahn_step_spec st : kahn_inv g st → queue st ≠ [] →
  ∃ cur, emitted (kahn_step adj st) = emitted st ++ [cur] ∧
    ready g (emitted st) cur ∧ (∀ y, ready g (emitted st) y → String.le cur y) ∧
    kahn_inv g (kahn_step adj st).
Proof.
  intros Hi Hne. destruct st as [q res deg]. simpl in *. unfold kahn_step. simpl.
  destruct (sort_strings q) as [|cur rest] eqn:Hs.
  { exfalso. apply Hne. apply Permutation_nil. rewrite <- Hs. apply merge_sort_Permutation. }
  destruct (sort_strings_head _ _ _ Hs) as [Hq Hle].
  destruct Hi as [Hrnd Hrdom Hrcl Hqnd Hqr Hdeg]. simpl in *.
  assert (NoDup (cur :: rest)) as Hnd2 by (by rewrite <- Hq).
  apply NoDup_cons in Hnd2 as [Hcur_rest Hrest_nd].
  assert (ready g res cur) as Hcur by (apply Hqr; rewrite Hq; set_solver).
  destruct Hcur as (Hcdom & Hcres & Hcdeps).
  set (L := default [] (adj !! cur)).
  assert (HL : ∀ x, occ x L = occ cur (deps_of g x)) by (intros x; apply Hadj).
  (* the neighbours of [cur] are registered, not emitted, and not [cur] *)
  assert (Hnb : ∀ x, x ∈ L → cur ∈ deps_of g x ∧ x ∈ dom g ∧ (x ∉ res) ∧ x ≠ cur).
  { intros x Hx. apply occ_pos in Hx. rewrite HL in Hx. apply occ_pos in Hx.
    split_and!; [done|by eapply deps_of_dom| |].
    - intros Hxr. apply Hcres. by apply (Hrcl x).
    - intros ->. apply Hcres. by apply Hcdeps. }
  assert (∀ x, x ∈ L → (Z.of_nat (occ x L) ≤ zget deg x)%Z) as Hpre.
  { intros x Hx. destruct (Hnb x Hx) as (_ & Hxd & Hxr & _).
    rewrite Hdeg by done. rewrite HL. unfold pending.
    pose proof (occ_le_filter res (deps_of g x) cur Hcres). lia. }
  destruct (relax_spec L deg rest Hpre) as (new & Hr & Hdeg' & Hnewnd & Hnew).
  rewrite Hr. exists cur. simpl. split_and!; [done|done| |].
  { intros y Hy. apply Hle. rewrite (Hqr y). split_and!; apply Hy. }
  split; simpl.
  - apply NoDup_app. split_and!; [done| |by apply NoDup_singleton]. set_solver.
  - intros x Hx. apply elem_of_app in Hx as [Hx|Hx]; [by apply Hrdom|set_solver].
  - intros x d Hx Hd. apply elem_of_app in Hx as [Hx|Hx].
    + apply elem_of_app. left. by apply (Hrcl x).
    + apply list_elem_of_singleton in Hx as ->. apply elem_of_app. left. by apply Hcdeps.
  - apply NoDup_app. split_and!; [done| |done].
    intros x Hx Hxn. apply Hnew in Hxn as [HxL Hx0].
    assert (ready g res x) as (Hxd & Hxr & Hxdeps) by (apply Hqr; rewrite Hq; set_solver).
    rewrite Hdeg in Hx0 by done. unfold pending in Hx0.
    assert (length (filter (fun d => d ∉ res) (deps_of g x)) = 0) as H0
      by (by apply filter_not_in_zero).
    apply occ_pos in HxL. lia.
  - intros x. rewrite elem_of_app, Hnew, ready_snoc. split.
    + intros [Hx|[HxL Hx0]].
      * assert (x ∈ q) as Hxq by (rewrite Hq; set_solver).
        apply Hqr in Hxq as (Hxd & Hxr & Hxdeps).
        split_and!; [done|done| |naive_solver]. intros ->. done.
      * destruct (Hnb x HxL) as (Hcx & Hxd & Hxr & Hxc). split_and!; [done|done|done|].
        rewrite Hdeg in Hx0 by done. unfold pending in Hx0.
        pose proof (pending_snoc_count res (deps_of g x) cur Hcres) as Hc.
        rewrite HL in Hx0.
        assert (length (filter (fun d => d ∉ res ++ [cur]) (deps_of g x)) = 0) as Hz by lia.
        intros d Hd. apply filter_not_in_zero with (d := d) in Hz; [|done].
        apply elem_of_app in Hz as [?|?]; [by left|right; set_solver].
    + intros (Hxd & Hxr & Hxc & Hxdeps).
      destruct (decide (cur ∈ deps_of g x)) as [Hcx|Hcx].
      * right. assert (x ∈ L) as HxL by (apply occ_pos; rewrite HL; by apply occ_pos).
        split; [done|]. rewrite Hdeg by done. unfold pending.
        pose proof (pending_snoc_count res (deps_of g x) cur Hcres) as Hc.
        assert (length (filter (fun d => d ∉ res ++ [cur]) (deps_of g x)) = 0) as Hz.
        { apply filter_not_in_zero. intros d Hd. apply elem_of_app.
          destruct (Hxdeps d Hd) as [?| ->]; [by left|right; set_solver]. }
        rewrite HL. lia.
      * left. assert (x ∈ q) as Hxq.
        { apply Hqr. split_and!; [done|done|]. intros d Hd.
          destruct (Hxdeps d Hd) as [?| ->]; [done|contradiction]. }
        rewrite Hq in Hxq. apply elem_of_cons in Hxq as [->|?]; [contradiction|done].
  - intros x Hxd Hxr. rewrite Hdeg', Hdeg by set_solver. unfold pending.
    pose proof (pending_snoc_count res (deps_of g x) cur Hcres) as Hc.
    rewrite HL. lia.
Qed.

Lemma kahn_loop_spec fuel : ∀ st, kahn_inv g st → size g ≤ fuel + length (emitted st) →
  kahn_inv g (kahn_loop adj fuel st) ∧ queue (kahn_loop adj fuel st) = [] ∧
  ∃ rest, emitted (kahn_loop adj fuel st) = emitted st ++ rest ∧ lex_greedy g (emitted st) rest.
Proof.
  induction fuel as [|fuel IH]; intros st Hi Hb.
  - pose proof (kahn_inv_bound st Hi) as Hb2. simpl.
    assert (queue st = []) as Hq by (destruct (queue st); [done|simpl in Hb2; lia]).
    split_and!; [done|done|]. exists []. rewrite app_nil_r. split; [done|].
    constructor. intros x Hx. apply (ki_q_ready _ _ Hi) in Hx. rewrite Hq in Hx; set_solver.
  - simpl. destruct (queue st) as [|y q] eqn:Hq.
    + split_and!; [done|done|]. exists []. rewrite app_nil_r. split; [done|].
      constructor. intros x Hx. apply (ki_q_ready _ _ Hi) in Hx. rewrite Hq in Hx; set_solver.
    + destruct (kahn_step_spec st Hi ltac:(by rewrite Hq)) as (cur & Hem & Hr & Hmin & Hi').
      destruct (IH (kahn_step adj st) Hi') as (Hi'' & Hq'' & rest & Hem' & Hgr);
        [rewrite Hem, length_app; simpl; lia|].
      split_and!; [done|done|]. exists (cur :: rest). rewrite Hem', Hem, <- app_assoc.
      split; [done|]. constructor; [done|done|]. by rewrite <- Hem.
Qed.

End Kahn.

(** ** The ordering returned by [getOrderedComponents] *)

Lemma filter_not_in_nil_length (l : list string) :
  length (filter (fun d => d ∉ @nil string) l) = length l.
Proof.
  induction l as [|y l IH]; [done|]. rewrite filter_cons. case_decide; simpl; set_solver by lia.
Qed.

Lemma lex_greedy_unique g p l1 l2 : lex_greedy g p l1 → lex_greedy g p l2 → l1 = l2.
Proof.
  intros H1. revert l2. induction H1 as [p Hnone|p x l Hx Hmin H1 IH]; intros l2 H2.
  - inversion H2 as [|? y ? Hy]; subst; [done|]. exfalso. by apply (Hnone y).
  - inversion H2 as [? Hnone|? y l' Hy Hmin' H2']; subst.
    + exfalso. by apply (Hnone x).
    + assert (x = y) as <- by (apply (anti_symm String.le); auto).
      f_equal. by apply IH.
Qed.

Lemma lex_greedy_topological_gen g p l : lex_greedy g p l →
  ∀ j x d, l !! j = Some x → d ∈ deps_of g x → d ∈ p ∨ ∃ i, i < j ∧ l !! i = Some d.
Proof.
  induction 1 as [p _|p x l Hx _ _ IH]; intros j y d Hj Hd; [done|].
  destruct j as [|j]; simpl in Hj.
  - injection Hj as <-. left. apply Hx, Hd.
  - destruct (IH j y d Hj Hd) as [Hdp|(i & Hi & Hli)].
    + apply elem_of_app in Hdp as [?|Hdx]; [by left|].
      apply list_elem_of_singleton in Hdx as ->. right. exists 0. split; [lia|done].
    + right. exists (S i). split; [lia|done].
Qed.

Lemma lex_greedy_topological g l : lex_greedy g [] l → topological g l.
Proof.
  intros Hl j x d Hj Hd. destruct (lex_greedy_topological_gen g [] l Hl j x d Hj Hd)
    as [Hin|?]; [set_solver|done].
Qed.

Section Ordered.
Context (g : gmap string (list string)).

Lemma kahn_init s deg : s ≡ₚ keys g → deg_ok g deg →
  kahn_inv g (KState (sources s deg) [] deg).
Proof.
  intros Hs Hdeg. split; simpl.
  - constructor.
  - set_solver.
  - set_solver.
  - apply NoDup_filter. by apply (iter_perm_nodup g).
  - intros x. unfold sources, ready. rewrite list_elem_of_filter, (iter_perm_elem g s x Hs), Hdeg.
    split.
    + intros [H0 Hx]. split_and!; [done|set_solver|]. intros d Hd.
      destruct (deps_of g x); [set_solver|simpl in H0; lia].
    + intros (Hx & _ & Hall). split; [|done].
      destruct (deps_of g x) as [|d ds]; [done|]. exfalso. specialize (Hall d). set_solver.
  - intros x _ _. unfold pending. by rewrite Hdeg, filter_not_in_nil_length.
Qed.

Lemma nodup_dom_perm (l : list string) :
  NoDup l → (∀ x, x ∈ l → x ∈ dom g) → length l = size g → l ≡ₚ keys g.
Proof.
  intros Hnd Hdom Hlen. apply submseteq_length_Permutation.
  - apply NoDup_submseteq; [done|]. intros x Hx. unfold keys. rewrite elem_of_elements. by apply Hdom.
  - rewrite (keys_length g). lia.
Qed.

Lemma getOrdered_inl e s l : e ≡ₚ keys g → s ≡ₚ keys g →
  getOrderedComponents g e s = inl l →
  deps_registered g ∧ l ≡ₚ keys g ∧ lex_greedy g [] l.
Proof.
  intros He Hs. unfold getOrderedComponents. pose proof (build_graph_spec g e He) as Hb.
  destruct (build_graph g e _ _) as [[graph deg]|err]; [|discriminate].
  destruct Hb as (Hreg & Hadj & Hdeg).
  destruct (kahn_loop_spec g graph Hadj (size g) _ (kahn_init s deg Hs Hdeg) ltac:(simpl; lia))
    as (Hi & _ & rest & Hem & Hgr).
  case_decide as Hlen; [|discriminate]. intros [= <-].
  simpl in Hem. rewrite Hem in Hlen |- *. split_and!; [done| |done].
  apply nodup_dom_perm; [| |done].
  - rewrite <- Hem. apply Hi.
  - intros x Hx. apply (ki_res_dom _ _ Hi). by rewrite Hem.
Qed.

Lemma getOrdered_complete e s : e ≡ₚ keys g → s ≡ₚ keys g →
  deps_registered g → ¬ has_cycle g → ∃ l, getOrderedComponents g e s = inl l.
Proof.
  intros He Hs Hreg Hnc. unfold getOrderedComponents. pose proof (build_graph_spec g e He) as Hb.
  destruct (build_graph g e _ _) as [[graph deg]|err].
  2:{ exfalso. destruct Hb as (n & d & _ & Hd & Hnd). by apply Hnd, (Hreg n). }
  destruct Hb as (_ & Hadj & Hdeg).
  set (st := kahn_loop graph (size g) _).
  destruct (kahn_loop_spec g graph Hadj (size g) _ (kahn_init s deg Hs Hdeg) ltac:(simpl; lia))
    as (Hi & Hq & _).
  fold st in Hi, Hq.
  assert (∀ x, x ∈ dom g → x ∈ emitted st) as Hall.
  { intros x. induction (no_cycle_acc g x Hnc) as [x _ IH]. intros Hx.
    destruct (decide (x ∈ emitted st)) as [?|Hxn]; [done|]. exfalso.
    assert (x ∈ queue st) as Hxq.
    { apply (ki_q_ready _ _ Hi). split_and!; [done|done|]. intros d Hd.
      apply IH; [|by apply (Hreg x)]. unfold flip, edge.
      unfold deps_of in Hd. destruct (g !! x) eqn:Ex; [|set_solver].
      exists l. split_and!; [done|done|]. apply (Hreg x). unfold deps_of. by rewrite Ex. }
    rewrite Hq in Hxq. set_solver. }
  assert (length (emitted st) = size g) as Hlen.
  { pose proof (kahn_inv_bound g st Hi). rewrite Hq in H. simpl in H.
    assert (size g ≤ length (emitted st)); [|lia].
    rewrite <- (keys_length g). apply submseteq_length, NoDup_submseteq.
    - unfold keys. apply NoDup_elements.
    - intros x Hx. apply Hall. unfold keys in Hx. by rewrite elem_of_elements in Hx. }
  rewrite decide_True by done. eauto.
Qed.

Lemma getOrdered_missing e s : e ≡ₚ keys g → missing_dependency g →
  ∃ n d, getOrderedComponents g e s = inr (ErrDependencyNotFound d n) ∧
    d ∈ deps_of g n ∧ d ∉ dom g.
Proof.
  intros He (x & ds & d & Hx & Hd & Hnd). unfold getOrderedComponents.
  pose proof (build_graph_spec g e He) as Hb.
  destruct (build_graph g e _ _) as [[graph deg]|err].
  - exfalso. destruct Hb as (Hreg & _). apply Hnd, (Hreg x). unfold deps_of. by rewrite Hx.
  - destruct Hb as (n & d' & -> & ? & ?). eauto.
Qed.

Lemma getOrdered_inr e s err : e ≡ₚ keys g → getOrderedComponents g e s = inr err →
  (∃ n d, err = ErrDependencyNotFound d n ∧ d ∈ deps_of g n ∧ d ∉ dom g) ∨
  (err = ErrCyclic ∧ deps_registered g).
Proof.
  intros He. unfold getOrderedComponents. pose proof (build_graph_spec g e He) as Hb.
  destruct (build_graph g e _ _) as [[graph deg]|err'].
  - case_decide; [discriminate|]. intros [= <-]. right. split; [done|apply Hb].
  - intros [= <-]. by left.
Qed.

End Ordered.

(** ** Records keep their shape *)

Lemma same_shape_refl m : same_shape m m.
Proof. done. Qed.

Lemma same_shape_trans m1 m2 m3 : same_shape m1 m2 → same_shape m2 m3 → same_shape m1 m3.
Proof. intros H1 H2 n. by rewrite H1. Qed.

Lemma same_shape_insert m n c c' :
  m !! n = Some c → shape c' = shape c → same_shape m (<[n := c']> m).
Proof.
  intros Hn Hs k. rewrite lookup_insert. case_decide; subst; [by rewrite Hn; simpl; f_equal|done].
Qed.

Lemma same_shape_lookup m m' n c : same_shape m m' → m !! n = Some c →
  ∃ c', m' !! n = Some c' ∧ shape c' = shape c.
Proof.
  intros Hs Hn. specialize (Hs n). rewrite Hn in Hs.
  destruct (m' !! n) as [c'|]; simpl in Hs; [|discriminate].
  exists c'. split; [done|]. unfold shape in *. congruence.
Qed.

Lemma same_shape_dom m m' : same_shape m m' → ∀ n, n ∈ dom m ↔ n ∈ dom m'.
Proof.
  intros Hs n. rewrite !elem_of_dom. specialize (Hs n).
  destruct (m !! n), (m' !! n); simpl in *; split; intros []; try done; eauto.
Qed.

Lemma same_shape_instance m m' n : same_shape m m' → instance <$> m !! n = instance <$> m' !! n.
Proof.
  intros Hs. specialize (Hs n).
  destruct (m !! n) as [c|], (m' !! n) as [c'|]; simpl in *; try done.
  unfold shape in Hs. simplify_eq/=. congruence.
Qed.

Lemma same_shape_dep_graph m m' : same_shape m m' → dep_graph m = dep_graph m'.
Proof.
  intros Hs. apply map_eq. intros n. unfold dep_graph. rewrite !lookup_fmap. specialize (Hs n).
  destruct (m !! n) as [c|], (m' !! n) as [c'|]; simpl in *; try done.
  unfold shape in Hs. simplify_eq/=. unfold GetDependencies. congruence.
Qed.

Lemma same_shape_wf_keys m m' : same_shape m m' → wf_keys m → wf_keys m'.
Proof.
  intros Hs Hw n c' Hn. specialize (Hs n). rewrite Hn in Hs.
  destruct (m !! n) as [c|] eqn:E; simpl in Hs; [|discriminate]. unfold shape in Hs.
  simplify_eq/=. rewrite <- (Hw n c E). congruence.
Qed.

Lemma same_shape_ctx_exact m m' c ctx : same_shape m m' → ctx_exact m c ctx → ctx_exact m' c ctx.
Proof.
  intros Hs [Hd Hc]. split.
  - intros d Hdc. apply elem_of_dom. rewrite <- (same_shape_dom m m' Hs). apply elem_of_dom. auto.
  - intros d. rewrite Hc. case_decide; [|done]. apply same_shape_instance, Hs.
Qed.

Lemma dep_graph_lookup m n c : m !! n = Some c → deps_of (dep_graph m) n = dependencies c.
Proof. intros Hn. unfold deps_of, dep_graph. by rewrite lookup_fmap, Hn. Qed.

Lemma dep_graph_dom m : dom (dep_graph m) = dom m.
Proof. unfold dep_graph. apply dom_fmap_L. Qed.

Lemma started_in_insert m n c x :
  started_in (<[n := c]> m) x = if decide (n = x) then started c else started_in m x.
Proof. unfold started_in. rewrite lookup_insert. by case_decide. Qed.

Lemma filter_ext_in {A} (P Q : A → Prop) `{∀ x, Decision (P x)} `{∀ x, Decision (Q x)} (l : list A) :
  (∀ x, x ∈ l → P x ↔ Q x) → filter P l = filter Q l.
Proof.
  induction l as [|y l IH]; intros Hpq; [done|]. rewrite !filter_cons.
  assert (P y ↔ Q y) as Hy by (apply Hpq; set_solver).
  rewrite IH by set_solver. repeat case_decide; naive_solver.
Qed.

Lemma occ_nodup x l : NoDup l → x ∈ l → occ x l = 1.
Proof.
  induction l as [|y l IH]; intros Hnd Hx; [set_solver|]. apply NoDup_cons in Hnd as [Hy Hnd].
  rewrite occ_cons. apply elem_of_cons in Hx as [->|Hx].
  - rewrite decide_True by done. rewrite occ_not_in by done. done.
  - rewrite decide_False by set_solver. by apply IH.
Qed.

(** ** The dependency context *)

Lemma dependency_context_inl m name deps : ∀ ctx0 ctx,
  dependency_context m name deps ctx0 = inl ctx →
  (∀ d, d ∈ deps → ∃ dc, m !! d = Some dc ∧ started dc = true) ∧
  ∀ d, ctx !! d = if decide (d ∈ deps) then instance <$> m !! d else ctx0 !! d.
Proof.
  induction deps as [|dep deps IH]; intros ctx0 ctx Heq; simpl in Heq.
  - injection Heq as <-. split; [set_solver|]. intros d. by rewrite decide_False by set_solver.
  - destruct (m !! dep) as [dc|] eqn:Hdc; [|discriminate].
    unfold IsStarted in Heq. destruct (started dc) eqn:Hst; simpl in Heq; [|discriminate].
    destruct (IH _ _ Heq) as [Hall Hctx]. split.
    + intros d Hd. apply elem_of_cons in Hd as [->|Hd]; eauto.
    + intros d. rewrite Hctx, lookup_insert.
      destruct (decide (d ∈ deps)) as [Hin|Hnin].
      * by rewrite decide_True by set_solver.
      * case_decide as Hdd.
        -- subst. rewrite decide_True by set_solver. by rewrite Hdc.
        -- by rewrite decide_False by set_solver.
Qed.

Lemma dependency_context_ok m name deps : ∀ ctx0,
  (∀ d, d ∈ deps → started_in m d = true) →
  ∃ ctx, dependency_context m name deps ctx0 = inl ctx.
Proof.
  induction deps as [|dep deps IH]; intros ctx0 Hall; simpl; [eauto|].
  assert (started_in m dep = true) as Hd by (apply Hall; set_solver).
  unfold started_in in Hd. destruct (m !! dep) as [dc|]; [|discriminate].
  unfold IsStarted. rewrite Hd. simpl. apply IH. intros d Hd'. apply Hall. set_solver.
Qed.

Lemma dependency_context_exact m name c ctx :
  dependency_context m name (GetDependencies c) ∅ = inl ctx → ctx_exact m c ctx.
Proof.
  intros Heq. destruct (dependency_context_inl _ _ _ _ _ Heq) as [Hall Hctx].
  unfold GetDependencies in *. split.
  - intros d Hd. destruct (Hall d Hd) as (dc & -> & _). eauto.
  - intros d. rewrite Hctx. case_decide; [reflexivity|apply lookup_empty].
Qed.

(** ** The start loop *)

Lemma same_shape_sym m m' : same_shape m m' → same_shape m' m.
Proof. intros Hs n. by rewrite Hs. Qed.

Lemma start_event_in_shape m m' ev : same_shape m m' → start_event_in m' ev → start_event_in m ev.
Proof.
  intros Hs (k & c' & ctx & out & Hk & -> & [Hd Hc]).
  destruct (same_shape_lookup m' m k c' (same_shape_sym _ _ Hs) Hk) as (c & Hk0 & Hsh).
  assert (key c' = key c ∧ instance c' = instance c ∧ dependencies c' = dependencies c)
    as (Hk1 & Hi1 & Hd1) by (unfold shape in Hsh; by simplify_eq/=).
  exists k, c, ctx, out. split_and!; [done|by rewrite Hk1, Hi1|].
  apply (same_shape_ctx_exact m' m); [by apply same_shape_sym|]. split.
  - intros d Hdc. apply Hd. by rewrite Hd1.
  - intros d. rewrite Hc. by rewrite Hd1.
Qed.

Lemma start_components_events env l : ∀ s,
  let '(err, s') := start_components env l s in
  sys_started s' = sys_started s ∧ same_shape (components s) (components s') ∧
  ∃ evs, log s' = log s ++ evs ∧ Forall (start_event_in (components s)) evs.
Proof.
  induction l as [|x rest IH]; intros s; simpl.
  { split_and!; [done|done|]. exists []. by rewrite app_nil_r. }
  destruct (components s !! x) as [c|] eqn:Hc.
  2:{ split_and!; [done|done|]. exists []. by rewrite app_nil_r. }
  destruct (dependency_context (components s) x (GetDependencies c) ∅) as [ctx|e] eqn:Hdc.
  2:{ split_and!; [done|done|]. exists []. by rewrite app_nil_r. }
  pose proof (dependency_context_exact _ _ _ _ Hdc) as Hex.
  unfold Component_Start. destruct (started c) eqn:Hst.
  - simpl. rewrite (insert_id _ _ _ Hc).
    specialize (IH (MkSystem (components s) (sys_started s) (<[x := instance c]> (context s)) (log s))).
    destruct (start_components _ _ _) as [err s']. exact IH.
  - destruct (lc_start env (instance c) ctx (log s)) as [v|e0] eqn:Hout; simpl.
    + set (c' := MkComponent (key c) (instance c) (dependencies c) (Some v) true).
      assert (same_shape (components s) (<[x := c']> (components s))) as Hsh1
        by (by apply (same_shape_insert _ _ c)).
      specialize (IH (MkSystem (<[x := c']> (components s)) (sys_started s)
        (<[x := v]> (context s)) (log s ++ [EvStart (key c) (instance c) ctx (StartOk v)]))).
      destruct (start_components _ _ _) as [err s'].
      destruct IH as (Hss & Hsh & evs & Hlog & Hall). simpl in *.
      split_and!; [done|by eapply same_shape_trans|].
      exists (EvStart (key c) (instance c) ctx (StartOk v) :: evs).
      split; [by rewrite Hlog, <- app_assoc|]. constructor.
      * exists x, c, ctx, (StartOk v). done.
      * eapply Forall_impl; [exact Hall|]. intros ev. by apply start_event_in_shape.
    + split_and!; [done|by rewrite (insert_id _ _ _ Hc)|].
      exists [EvStart (key c) (instance c) ctx (StartErr e0)]. split; [done|].
      constructor; [|constructor]. exists x, c, ctx, (StartErr e0). done.
Qed.

Lemma start_keys_cons_ok k self ctx v evs :
  start_keys (EvStart k self ctx (StartOk v) :: evs) = k :: start_keys evs.
Proof. done. Qed.

Lemma started_in_lookup m x c : m !! x = Some c → started_in m x = started c.
Proof. unfold started_in. by intros ->. Qed.

(** A run of the start loop over an order in which every dependency of a
    name comes earlier or is started already: it either starts every name,
    or stops at the first lifecycle [Start] that fails. *)
Lemma start_run env l : ∀ s,
  NoDup l → wf_keys (components s) → (∀ x, x ∈ l → x ∈ dom (components s)) →
  (∀ j x d, l !! j = Some x → d ∈ deps_of (dep_graph (components s)) x →
     (∃ i, i < j ∧ l !! i = Some d) ∨ started_in (components s) d = true) →
  let '(err, s') := start_components env l s in
  sys_started s' = sys_started s ∧ same_shape (components s) (components s') ∧
  ((err = None ∧ ∃ evs, log s' = log s ++ evs ∧ Forall (fun ev => is_start_ok ev = true) evs ∧
      start_keys evs = filter (fun x => started_in (components s) x = false) l ∧
      (∀ x, x ∈ l → started_in (components s') x = true) ∧
      (∀ x, x ∉ l → components s' !! x = components s !! x) ∧
      (∀ x, x ∉ l → context s' !! x = context s !! x) ∧
      (∀ x c, x ∈ l → components s !! x = Some c → started c = true →
         context s' !! x = Some (instance c)))
   ∨ (∃ pre B post cB ctx e0 evs, l = pre ++ B :: post ∧
      components s !! B = Some cB ∧ started cB = false ∧
      lc_start env (instance cB) ctx (log s ++ evs) = StartErr e0 ∧
      err = Some (ErrFailedToStart B (ErrComponentStart e0)) ∧
      log s' = log s ++ evs ++ [EvStart B (instance cB) ctx (StartErr e0)] ∧
      Forall (fun ev => is_start_ok ev = true) evs ∧
      start_keys evs = filter (fun x => started_in (components s) x = false) pre ∧
      (∀ x, x ∈ pre → started_in (components s') x = true) ∧
      (∀ x, x ∉ pre → components s' !! x = components s !! x))).
Proof.
  induction l as [|x rest IH]; intros s Hnd Hwf Hdom Hdeps; simpl.
  { split_and!; [done|done|]. left. split; [done|]. exists []. rewrite app_nil_r.
    split_and!; [done|constructor|done|set_solver|done|done|set_solver]. }
  apply NoDup_cons in Hnd as [Hx Hnd].
  assert (x ∈ dom (components s)) as Hxd by (apply Hdom; set_solver).
  apply elem_of_dom in Hxd as [c Hc]. rewrite Hc.
  assert (key c = x) as Hkey by (by apply (Hwf x c)).
  assert (∀ d, d ∈ GetDependencies c → started_in (components s) d = true) as Hd0.
  { intros d Hd. assert (d ∈ deps_of (dep_graph (components s)) x) as Hd'
      by (by rewrite (dep_graph_lookup _ _ _ Hc)).
    destruct (Hdeps 0 x d eq_refl Hd') as [(i & Hi & _)|?]; [lia|done]. }
  destruct (dependency_context_ok _ x _ ∅ Hd0) as [ctx Hctx]. rewrite Hctx.
  unfold Component_Start. destruct (started c) eqn:Hst.
  - (* already started: no lifecycle call *)
    simpl. rewrite (insert_id _ _ _ Hc).
    set (s1 := MkSystem (components s) (sys_started s) (<[x := instance c]> (context s)) (log s)).
    assert (∀ j y d, rest !! j = Some y → d ∈ deps_of (dep_graph (components s1)) y →
      (∃ i, i < j ∧ rest !! i = Some d) ∨ started_in (components s1) d = true) as Hdeps1.
    { intros j y d Hj Hd. destruct (Hdeps (S j) y d Hj Hd) as [(i & Hi & Hli)|?]; [|by right].
      destruct i as [|i]; simpl in Hli.
      - injection Hli as <-. right. simpl. by rewrite (started_in_lookup _ _ _ Hc).
      - left. exists i. split; [lia|done]. }
    specialize (IH s1 Hnd Hwf ltac:(set_solver) Hdeps1).
    destruct (start_components env rest s1) as [err s'].
    destruct IH as (Hss & Hsh & [(-> & evs & Hlog & Hok & Hkeys & Hon & Hout & Hcout & Hctx')|
      (pre & B & post & cB & ctxB & e0 & evs & -> & HB & HBs & HBerr & -> & Hlog & Hok & Hkeys & Hon & Hout)]);
      simpl in *.
    + split_and!; [done|done|]. left. split; [done|]. exists evs. split_and!; [done|done| | | | |].
      * rewrite filter_cons_False; [done|]. by rewrite (started_in_lookup _ _ _ Hc), Hst.
      * intros y Hy. apply elem_of_cons in Hy as [->|Hy]; [|by apply Hon].
        rewrite (started_in_lookup _ x c); [done|]. by rewrite Hout.
      * intros y Hy. apply Hout. set_solver.
      * intros y Hy. rewrite Hcout by set_solver. rewrite lookup_insert_ne; [done|set_solver].
      * intros y cy Hy Hcy Hsty. apply elem_of_cons in Hy as [->|Hy]; [|by apply Hctx'].
        rewrite Hcout by done. rewrite lookup_insert_eq. congruence.
    + split_and!; [done|done|]. right.
      exists (x :: pre), B, post, cB, ctxB, e0, evs. split_and!; try done.
      * rewrite filter_cons_False; [done|]. by rewrite (started_in_lookup _ _ _ Hc), Hst.
      * intros y Hy. apply elem_of_cons in Hy as [->|Hy]; [|by apply Hon].
        rewrite (started_in_lookup _ x c); [done|]. rewrite Hout; [done|]. intros ?.
        apply Hx. set_solver.
      * intros y Hy. apply Hout. set_solver.
  - destruct (lc_start env (instance c) ctx (log s)) as [v|e0] eqn:Hout; simpl.
    2:{ split_and!; [done|by rewrite (insert_id _ _ _ Hc)|]. right.
        exists [], x, rest, c, ctx, e0, []. rewrite app_nil_r, Hkey, (insert_id _ _ _ Hc).
        split_and!; try done; set_solver. }
    set (c' := MkComponent (key c) (instance c) (dependencies c) (Some v) true).
    assert (same_shape (components s) (<[x := c']> (components s))) as Hsh1
      by (by apply (same_shape_insert _ _ c)).
    set (s1 := MkSystem (<[x := c']> (components s)) (sys_started s)
      (<[x := v]> (context s)) (log s ++ [EvStart (key c) (instance c) ctx (StartOk v)])).
    assert (∀ y, y ≠ x → started_in (components s1) y = started_in (components s) y) as Hsame.
    { intros y Hy. simpl. rewrite started_in_insert. by rewrite decide_False. }
    assert (∀ y, y ∈ rest → y ∈ dom (components s1)) as Hdom1.
    { intros y Hy. simpl. rewrite <- (same_shape_dom _ _ Hsh1). apply Hdom. set_solver. }
    assert (∀ j y d, rest !! j = Some y → d ∈ deps_of (dep_graph (components s1)) y →
      (∃ i, i < j ∧ rest !! i = Some d) ∨ started_in (components s1) d = true) as Hdeps1.
    { simpl. rewrite <- (same_shape_dep_graph _ _ Hsh1).
      intros j y d Hj Hd. destruct (Hdeps (S j) y d Hj Hd) as [(i & Hi & Hli)|Hs].
      - destruct i as [|i]; simpl in Hli.
        + injection Hli as <-. right. rewrite started_in_insert. by rewrite decide_True.
        + left. exists i. split; [lia|done].
      - right. rewrite started_in_insert. case_decide; [done|done]. }
    specialize (IH s1 Hnd (same_shape_wf_keys _ _ Hsh1 Hwf) Hdom1 Hdeps1).
    destruct (start_components env rest s1) as [err s'].
    destruct IH as (Hss & Hsh & [(-> & evs & Hlog & Hok & Hkeys & Hon & Hout' & Hcout & Hctx')|
      (pre & B & post & cB & ctxB & e1 & evs & -> & HB & HBs & HBerr & -> & Hlog & Hok & Hkeys & Hon & Hout')]);
      simpl in *.
    + split_and!; [done|by eapply same_shape_trans|]. left. split; [done|].
      exists (EvStart x (instance c) ctx (StartOk v) :: evs).
      split_and!; [by rewrite Hlog, <- app_assoc, Hkey|by constructor| | | | |].
      * rewrite start_keys_cons_ok, filter_cons_True
          by (by rewrite (started_in_lookup _ _ _ Hc), Hst).
        f_equal. rewrite Hkeys. apply filter_ext_in. intros y Hy.
        rewrite Hsame; [done|set_solver].
      * intros y Hy. apply elem_of_cons in Hy as [->|Hy]; [|by apply Hon].
        rewrite (started_in_lookup _ x c'); [done|]. rewrite Hout' by done. apply lookup_insert_eq.
      * intros y Hy. rewrite Hout' by set_solver. rewrite lookup_insert_ne; [done|set_solver].
      * intros y Hy. rewrite Hcout by set_solver. rewrite lookup_insert_ne; [done|set_solver].
      * intros y cy Hy Hcy Hsty. apply elem_of_cons in Hy as [->|Hy]; [congruence|].
        apply Hctx'; [done| |done]. rewrite lookup_insert_ne; [done|set_solver].
    + split_and!; [done|by eapply same_shape_trans|]. right.
      assert (B ≠ x) as HBx by (intros ->; apply Hx; set_solver).
      rewrite lookup_insert_ne in HB by done.
      exists (x :: pre), B, post, cB, ctxB, e1, (EvStart x (instance c) ctx (StartOk v) :: evs).
      split_and!; try done.
      * by rewrite <- Hkey, <- HBerr, <- app_assoc.
      * by rewrite Hlog, <- !app_assoc, Hkey.
      * by constructor.
      * rewrite start_keys_cons_ok, filter_cons_True
          by (by rewrite (started_in_lookup _ _ _ Hc), Hst).
        f_equal. rewrite Hkeys. apply filter_ext_in. intros y Hy.
        rewrite Hsame; [done|]. intros ->. apply Hx. set_solver.
      * intros y Hy. apply elem_of_cons in Hy as [->|Hy]; [|by apply Hon].
        rewrite (started_in_lookup _ x c'); [done|]. rewrite Hout'.
        -- apply lookup_insert_eq.
        -- intros ?. apply Hx. set_solver.
      * intros y Hy. rewrite Hout' by set_solver. rewrite lookup_insert_ne; [done|set_solver].
Qed.

(** ** The stop loop *)

Lemma stop_ok_keys_sub evs x : x ∈ stop_ok_keys evs → x ∈ map ev_key evs.
Proof.
  induction evs as [|ev evs IH]; [set_solver|].
  destruct ev as [k ? ? ?|k ? ? [?|]]; simpl; rewrite ?elem_of_cons; naive_solver.
Qed.

Lemma stop_failures_sub evs x : x ∈ stop_failures evs → x ∈ map ev_key evs.
Proof.
  induction evs as [|ev evs IH]; [set_solver|].
  destruct ev as [k ? ? ?|k ? ? [?|]]; simpl; rewrite ?elem_of_cons; naive_solver.
Qed.

Lemma filter_sub {A} (P : A → Prop) `{∀ x, Decision (P x)} (l : list A) x : x ∈ filter P l → x ∈ l.
Proof. rewrite list_elem_of_filter. tauto. Qed.

(** A run of the stop loop: one lifecycle [Stop] per started name, in the
    order given, all with the system context; the records whose [Stop]
    succeeded are un-started; the error is the last failure. *)
Lemma stop_run env l : ∀ s lastErr,
  NoDup l → wf_keys (components s) → (∀ x, x ∈ l → x ∈ dom (components s)) →
  let '(err, s') := stop_components env l s lastErr in
  sys_started s' = sys_started s ∧ context s' = context s ∧
  same_shape (components s) (components s') ∧
  ∃ evs, log s' = log s ++ evs ∧
    map ev_key evs = filter (fun x => started_in (components s) x = true) l ∧
    Forall (fun ev => ∃ c out, components s !! ev_key ev = Some c ∧
                               ev = EvStop (key c) (instance c) (context s) out) evs ∧
    err = last_stop_error lastErr evs ∧
    (∀ x c, components s !! x = Some c →
       components s' !! x = Some (if decide (x ∈ stop_ok_keys evs) then unstart c else c)).
Proof.
  induction l as [|x rest IH]; intros s lastErr Hnd Hwf Hdom; simpl.
  { split_and!; [done|done|done|]. exists []. rewrite app_nil_r.
    split_and!; [done|done|constructor|done|]. intros x c Hc. by rewrite decide_False by set_solver. }
  apply NoDup_cons in Hnd as [Hx Hnd].
  assert (x ∈ dom (components s)) as Hxd by (apply Hdom; set_solver).
  apply elem_of_dom in Hxd as [c Hc]. rewrite Hc.
  assert (key c = x) as Hkey by (by apply (Hwf x c)).
  unfold Component_Stop. destruct (started c) eqn:Hst; simpl.
  2:{ rewrite (insert_id _ _ _ Hc).
      specialize (IH (MkSystem (components s) (sys_started s) (context s) (log s)) lastErr
        Hnd Hwf ltac:(set_solver)).
      destruct (stop_components _ _ _ _) as [err s']. simpl in IH.
      destruct IH as (Hss & Hctx & Hsh & evs & Hlog & Hkeys & Hall & Herr & Hcomp).
      split_and!; [done|done|done|]. exists evs. split_and!; try done.
      rewrite filter_cons_False; [done|]. by rewrite (started_in_lookup _ _ _ Hc), Hst. }
  destruct (lc_stop env (instance c) (context s) (log s)) as [e|] eqn:Hout; simpl.
  - rewrite (insert_id _ _ _ Hc).
    specialize (IH (MkSystem (components s) (sys_started s) (context s)
      (log s ++ [EvStop (key c) (instance c) (context s) (Some e)]))
      (Some (ErrFailedToStop x (ErrComponentStop e))) Hnd Hwf ltac:(set_solver)).
    destruct (stop_components _ _ _ _) as [err s']. simpl in IH.
    destruct IH as (Hss & Hctx & Hsh & evs & Hlog & Hkeys & Hall & Herr & Hcomp).
    split_and!; [done|done|done|].
    exists (EvStop (key c) (instance c) (context s) (Some e) :: evs).
    split_and!; [by rewrite Hlog, <- app_assoc| | | |].
    + simpl. rewrite filter_cons_True by (by rewrite (started_in_lookup _ _ _ Hc)).
      by rewrite Hkey, Hkeys.
    + constructor; [|done]. exists c, (Some e). simpl. by rewrite Hkey.
    + simpl. by rewrite Hkey.
    + done.
  - set (s1 := MkSystem (<[x := unstart c]> (components s)) (sys_started s) (context s)
      (log s ++ [EvStop (key c) (instance c) (context s) None])).
    assert (same_shape (components s) (components s1)) as Hsh1
      by (by apply (same_shape_insert _ _ c)).
    specialize (IH s1 lastErr Hnd (same_shape_wf_keys _ _ Hsh1 Hwf)).
    assert (∀ y, y ∈ rest → y ∈ dom (components s1)) as Hdom1.
    { intros y Hy. rewrite <- (same_shape_dom _ _ Hsh1). apply Hdom. set_solver. }
    specialize (IH Hdom1).
    destruct (stop_components _ _ _ _) as [err s']. simpl in IH.
    destruct IH as (Hss & Hctx & Hsh & evs & Hlog & Hkeys & Hall & Herr & Hcomp).
    assert (∀ y, y ∈ map ev_key evs → y ≠ x) as Hne.
    { intros y Hy ->. apply Hx. rewrite Hkeys in Hy. by apply filter_sub in Hy. }
    split_and!; [done|done|by eapply same_shape_trans|].
    exists (EvStop (key c) (instance c) (context s) None :: evs).
    split_and!; [by rewrite Hlog, <- app_assoc| | | |].
    + simpl. rewrite filter_cons_True by (by rewrite (started_in_lookup _ _ _ Hc)).
      rewrite Hkey, Hkeys. f_equal. apply filter_ext_in. intros y Hy. simpl.
      rewrite started_in_insert, decide_False; [done|]. intros ->. by apply Hx.
    + constructor.
      * exists c, None. simpl. by rewrite Hkey.
      * rewrite Forall_forall in Hall |- *. intros ev Hev.
        destruct (Hall ev Hev) as (c1 & out & Hc1 & Hev1). exists c1, out. split; [|done].
        simpl in Hc1. rewrite lookup_insert_ne in Hc1; [done|].
        intros Heq. apply (Hne (ev_key ev)); [|done]. by apply list_elem_of_fmap_2.
    + done.
    + intros y cy Hcy. simpl. rewrite Hkey. destruct (decide (y = x)) as [->|Hyx].
      * rewrite Hcy in Hc. injection Hc as ->.
        rewrite (Hcomp x (unstart c)) by (simpl; apply lookup_insert_eq).
        rewrite decide_False; [by rewrite decide_True by set_solver|].
        intros Hin. apply stop_ok_keys_sub in Hin. by apply (Hne x Hin).
      * rewrite (Hcomp y cy) by (simpl; by rewrite lookup_insert_ne).
        repeat case_decide; try done; exfalso; set_solver.
Qed.

(** ** Cycle check and ordering at the system level *)

Lemma tc_edge_dom g x y : tc (edge g) x y → x ∈ dom g.
Proof. intros Ht. destruct Ht as [x y (ds & Hx & _)|x y z (ds & Hx & _) _]; apply elem_of_dom; eauto. Qed.

Lemma no_cycle_of_acc g : (∀ n, n ∈ dom g → Acc (flip (edge g)) n) → ¬ has_cycle g.
Proof.
  intros Hacc (x & Hx). apply (acc_no_cycle g x); [|done]. apply Hacc. by eapply tc_edge_dom.
Qed.

Lemma check_none_no_cycle g order : order ≡ₚ keys g →
  checkCyclicDependencies g order = None → ¬ has_cycle g.
Proof.
  intros Hp Hnone. apply no_cycle_of_acc. intros n Hn. apply (checkCyclic_complete g order Hnone).
  by rewrite (iter_perm_elem g order n Hp).
Qed.

Lemma check_none_of_acyclic g it : iter_ok g it → ¬ has_cycle g →
  checkCyclicDependencies g (it_check it) = None.
Proof.
  intros Hit Hnc. destruct (checkCyclicDependencies g (it_check it)) as [e|] eqn:E; [|done].
  exfalso. apply Hnc. eapply checkCyclic_sound; [|exact E]. by apply iter_check_dom.
Qed.

Lemma check_some_of_cycle g it : iter_ok g it → has_cycle g →
  ∃ n, checkCyclicDependencies g (it_check it) = Some (ErrCyclicInvolving n).
Proof.
  intros Hit Hc. destruct (checkCyclicDependencies g (it_check it)) as [e|] eqn:E.
  - destruct (checkCyclic_error_shape g _ e E) as [n ->]. eauto.
  - exfalso. destruct Hit as (Hp & _). by apply (check_none_no_cycle g (it_check it) Hp E).
Qed.

Lemma getOrdered_topo g e s l : e ≡ₚ keys g → s ≡ₚ keys g →
  getOrderedComponents g e s = inl l →
  deps_registered g ∧ l ≡ₚ keys g ∧ NoDup l ∧ topological g l.
Proof.
  intros He Hs Hl. destruct (getOrdered_inl g e s l He Hs Hl) as (Hreg & Hp & Hgr).
  split_and!; [done|done|by apply (iter_perm_nodup g)|by apply lex_greedy_topological].
Qed.

Lemma keys_dep_graph m x : x ∈ keys (dep_graph m) ↔ x ∈ dom m.
Proof. unfold keys. by rewrite elem_of_elements, dep_graph_dom. Qed.

(** A topological order satisfies the premise of [start_run]. *)
Lemma topological_start_premise m l (P : string → Prop) :
  topological (dep_graph m) l →
  ∀ j x d, l !! j = Some x → d ∈ deps_of (dep_graph m) x → (∃ i, i < j ∧ l !! i = Some d) ∨ P d.
Proof. intros Ht j x d Hj Hd. left. by apply (Ht j x d). Qed.

Lemma deps_registered_alt g :
  map_Forall (fun _ ds => Forall (fun d => d ∈ dom g) ds) g → deps_registered g.
Proof.
  intros Hall x d Hd. unfold deps_of in Hd. destruct (g !! x) as [ds|] eqn:Hx; [|set_solver].
  specialize (Hall x ds Hx). simpl in Hd. rewrite Forall_forall in Hall. by apply Hall.
Qed.

Lemma stop_keys_split evs x :
  Forall (fun ev => ∃ k self ctx out, ev = EvStop k self ctx out) evs →
  x ∈ map ev_key evs → x ∈ stop_ok_keys evs ∨ x ∈ stop_failures evs.
Proof.
  induction evs as [|ev evs IH]; intros Hall Hx; [set_solver|].
  apply Forall_cons in Hall as [Hev Hall]. simpl in Hx. apply elem_of_cons in Hx as [->|Hx].
  - destruct Hev as (k & self & ctx & [e|] & ->); simpl; set_solver.
  - destruct (IH Hall Hx) as [?|?];
      destruct ev as [k ? ? ?|k ? ? [?|]]; simpl; set_solver.
Qed.

Lemma stop_keys_disjoint evs x : NoDup (map ev_key evs) →
  x ∈ stop_failures evs → x ∉ stop_ok_keys evs.
Proof.
  induction evs as [|ev evs IH]; intros Hnd Hx; [set_solver|].
  simpl in Hnd. apply NoDup_cons in Hnd as [Hn Hnd].
  destruct ev as [k ? ? ?|k ? ? [?|]]; simpl in *; [by apply IH| |].
  - apply elem_of_cons in Hx as [->|Hx].
    + intros Hin. apply Hn. by apply stop_ok_keys_sub.
    + by apply IH.
  - rewrite elem_of_cons. intros [->|Hin]; [apply Hn; by apply stop_failures_sub|].
    by apply (IH Hnd Hx).
Qed.

(** ** Invariants of the reachable states *)

Lemma perm_keys_dom m (l : list string) x : l ≡ₚ keys (dep_graph m) → x ∈ l ↔ x ∈ dom m.
Proof. intros Hp. by rewrite Hp, keys_dep_graph. Qed.

Lemma reachable_inv m0 s : wf_keys m0 → reachable m0 s →
  same_shape m0 (components s) ∧
  (sys_started s = true → deps_registered (dep_graph m0) ∧ ¬ has_cycle (dep_graph m0) ∧
     ∀ x, x ∈ dom m0 → started_in (components s) x = true).
Proof.
  intros Hwf0. induction 1 as [|env it s Hr IH Hit|env it s Hr IH Hit].
  - split; [done|]. simpl. discriminate.
  - destruct IH as [Hsh Hst].
    assert (dep_graph m0 = dep_graph (components s)) as Hg by (by apply same_shape_dep_graph).
    assert (wf_keys (components s)) as Hwf by (by apply (same_shape_wf_keys m0)).
    unfold System_Start. destruct (sys_started s) eqn:Hss; [simpl; split; [done|intros; by apply Hst]|].
    destruct (checkCyclicDependencies _ (it_check it)) eqn:Hc; [simpl; split; [done|congruence]|].
    destruct (getOrderedComponents _ _ _) as [l|e] eqn:Ho; [|simpl; split; [done|congruence]].
    destruct Hit as (Hic & Hie & His).
    destruct (getOrdered_topo _ _ _ l Hie His Ho) as (Hreg & Hp & Hnd & Htop).
    assert (∀ x, x ∈ l → x ∈ dom (components s)) as Hdom by (intros x; by rewrite perm_keys_dom).
    pose proof (start_run env l s Hnd Hwf Hdom (topological_start_premise _ _ _ Htop)) as Hrun.
    destruct (start_components env l s) as [[e|] s'];
      destruct Hrun as (Hss' & Hsh' & [(Hn & evs & _ & _ & _ & Hon & _)|(pre & B & post & cB & ctx & e0 & evs & _ & _ & _ & _ & Herr & _)]);
      simpl; try discriminate.
    + split; [by eapply same_shape_trans|]. congruence.
    + split; [by eapply same_shape_trans|]. intros _. rewrite Hg. split_and!; [done| |].
      * by apply (check_none_no_cycle _ (it_check it)).
      * intros x Hx. apply Hon. apply (perm_keys_dom (components s)); [done|].
        by rewrite <- (same_shape_dom _ _ Hsh).
  - destruct IH as [Hsh Hst].
    assert (wf_keys (components s)) as Hwf by (by apply (same_shape_wf_keys m0)).
    unfold System_Stop. destruct (sys_started s) eqn:Hss; [|simpl; split; [done|congruence]]. simpl.
    destruct (getOrderedComponents _ _ _) as [l|e] eqn:Ho; [|simpl; split; [done|intros; by apply Hst]].
    destruct Hit as (Hic & Hie & His).
    destruct (getOrdered_topo _ _ _ l Hie His Ho) as (Hreg & Hp & Hnd & Htop).
    assert (∀ x, x ∈ reverse l → x ∈ dom (components s)) as Hdom
      by (intros x; by rewrite elem_of_reverse, perm_keys_dom).
    pose proof (stop_run env (reverse l) s None ltac:(by rewrite reverse_Permutation) Hwf Hdom) as Hrun.
    destruct (stop_components env (reverse l) s None) as [err s'].
    destruct Hrun as (_ & _ & Hsh' & _). simpl. split; [by eapply same_shape_trans|discriminate].
Qed.

(** ** Small runs *)

Example abc_order :
  getOrderedComponents (dep_graph abc) ["compC"; "compA"; "compB"] ["compB"; "compC"; "compA"]
  = inl ["compA"; "compB"; "compC"].
Proof. vm_compute. reflexivity. Qed.

Example abc_cycle_none :
  checkCyclicDependencies (dep_graph abc) ["compB"; "compA"; "compC"] = None.
Proof. vm_compute. reflexivity. Qed.

Example cyc_detect :
  checkCyclicDependencies (dep_graph cyc) ["compB"; "compA"; "compC"] = Some (ErrCyclicInvolving "compB").
Proof. vm_compute. reflexivity. Qed.

Example abc_start_stop :
  let it := MkIter ["compA"; "compB"; "compC"] ["compA"; "compB"; "compC"] ["compA"; "compB"; "compC"] in
  let '(e1, s1) := System_Start env_ok it (CreateSystem abc) in
  let '(e2, s2) := System_Stop env_ok it s1 in
  (e1, e2, map (fun ev => match ev with EvStart k _ _ _ => ("start", k) | EvStop k _ _ _ => ("stop", k) end) (log s2))
  = (None, None, [("start", "compA"); ("start", "compB"); ("start", "compC");
                  ("stop", "compC"); ("stop", "compB"); ("stop", "compA")]).
Proof. vm_compute. reflexivity. Qed.

(** * The claims *)

(** ** C1 *)

(** C1 (code bug): what [System.Start] does. Every call of a lifecycle
    [Start] is made for a record of the component map, with a context that
    maps exactly the record's declared dependency names, each to the
    wrapped [instance] of that dependency's record
    ([ctx[dep] = depComponent.instance]), and no other name. The stored
    [result] of the dependency's own start call, which the specification
    names and which [s.context] and [System.Stop] use, is not read here. *)
Theorem C1_start_context env it s :
  let '(err, s') := System_Start env it s in
  ∃ evs, log s' = log s ++ evs ∧ Forall (start_event_in (components s)) evs.
Proof.
  unfold System_Start. destruct (sys_started s).
  { exists []. by rewrite app_nil_r. }
  destruct (checkCyclicDependencies _ _).
  { exists []. by rewrite app_nil_r. }
  destruct (getOrderedComponents _ _ _) as [l|e].
  2:{ exists []. by rewrite app_nil_r. }
  pose proof (start_components_events env l s) as Hrun.
  destruct (start_components env l s) as [[e|] s']; destruct Hrun as (_ & _ & evs & Hlog & Hall);
    exists evs; done.
Qed.

(** C1, counterexample: with a lifecycle whose [Start] returns its
    receiver plus 6, the record ["A"] stores the result 7 and the system
    context maps ["A"] to 7, but ["B"] is started with ["A"] bound to the
    instance 1. *)
Lemma C1_counterexample :
  let '(err, s') := System_Start env_plus6 (it_of ["A"; "B"]) (CreateSystem ab) in
  err = None ∧
  log s' = [EvStart "A" 1 ∅ (StartOk 7); EvStart "B" 2 {["A" := 1]} (StartOk 8)] ∧
  components s' !! "A" = Some (MkComponent "A" 1 [] (Some 7) true) ∧
  context s' !! "A" = Some 7.
Proof. vm_compute. split_and!; reflexivity. Qed.

(** ** C2 *)

(** C2 (corrected): on a started record, [Component.Stop] calls the
    lifecycle [Stop] once. When it succeeds the record is un-started and
    [nil] is returned. When it fails, the function returns early: the
    record is left as it was (still started), and the error is wrapped as
    ["failed to stop component: %w"], without the component's name (the
    name is added only by [System.Stop]). *)
Theorem C2_component_stop env c ctx tr :
  IsStarted c = true →
  let out := lc_stop env (instance c) ctx tr in
  Component_Stop env c ctx tr =
    (ErrComponentStop <$> out,
     (match out with None => unstart c | Some _ => c end),
     tr ++ [EvStop (key c) (instance c) ctx out]).
Proof.
  unfold IsStarted, Component_Stop. intros Hst. rewrite Hst. simpl.
  by destruct (lc_stop env (instance c) ctx tr).
Qed.

Lemma C2_witness :
  IsStarted (MkComponent "B" 2 [] (Some 2) true) = true ∧
  Component_Stop env_stop_fail2 (MkComponent "B" 2 [] (Some 2) true) ∅ [] =
    (Some (ErrComponentStop (ErrLifecycle 9)), MkComponent "B" 2 [] (Some 2) true,
     [EvStop "B" 2 ∅ (Some (ErrLifecycle 9))]).
Proof.
  split; [reflexivity|].
  apply (C2_component_stop env_stop_fail2 (MkComponent "B" 2 [] (Some 2) true) ∅ []).
  reflexivity.
Defined.

(** C2, counterexample: a started record whose lifecycle [Stop] fails is
    still started afterwards, and the error carries no component name. *)
Lemma C2_counterexample :
  let '(err, c', _) := Component_Stop env_stop_fail2 (MkComponent "B" 2 [] (Some 2) true) ∅ [] in
  err = Some (ErrComponentStop (ErrLifecycle 9)) ∧ IsStarted c' = true.
Proof. vm_compute. split; reflexivity. Qed.

(** ** C3 *)

(** C3 (code bug): what [Component.Start] does on a started record. It
    makes no lifecycle call and changes nothing, but returns the wrapped
    [instance] ([return c.instance, nil]) instead of the [result] it
    cached on the first start, which nothing else reads. *)
Theorem C3_component_start_cached env c ctx tr :
  IsStarted c = true → Component_Start env c ctx tr = (StartOk (instance c), c, tr).
Proof. unfold IsStarted, Component_Start. intros ->. done. Qed.

Lemma C3_witness :
  IsStarted (MkComponent "A" 1 [] (Some 7) true) = true ∧
  Component_Start env_plus6 (MkComponent "A" 1 [] (Some 7) true) ∅ [] =
    (StartOk 1, MkComponent "A" 1 [] (Some 7) true, []).
Proof.
  split; [reflexivity|].
  apply (C3_component_start_cached env_plus6 (MkComponent "A" 1 [] (Some 7) true) ∅ []).
  reflexivity.
Defined.

(** C3, counterexample: after a start call whose lifecycle returned 7,
    the record caches 7, yet a second [Start] returns the instance 1. *)
Lemma C3_counterexample :
  let '(_, c1, _) := Component_Start env_plus6 (Define "A" 1 []) ∅ [] in
  result c1 = Some 7 ∧ IsStarted c1 = true ∧
  (Component_Start env_plus6 c1 ∅ []).1.1 = StartOk 1.
Proof. vm_compute. split_and!; reflexivity. Qed.

(** ** C4 *)

(** C4 (confirmed): when the dependency edges among registered names of a
    system that is not started form a cycle, [System.Start] returns the
    cyclic-dependency error naming the component whose traversal found it,
    and leaves the whole state unchanged: no lifecycle call is logged, the
    records and the context are as before, and the system is not started. *)
Theorem C4_cycle_aborts_start env it s :
  sys_started s = false → iter_ok (dep_graph (components s)) it →
  has_cycle (dep_graph (components s)) →
  ∃ n, System_Start env it s = (Some (ErrCyclicInvolving n), s).
Proof.
  intros Hs Hit Hc. unfold System_Start. rewrite Hs.
  destruct (check_some_of_cycle _ it Hit Hc) as [n Hn]. rewrite Hn. eauto.
Qed.

Lemma C4_witness :
  sys_started (CreateSystem cyc) = false ∧
  iter_ok (dep_graph (components (CreateSystem cyc))) (it_of abc_names) ∧
  has_cycle (dep_graph (components (CreateSystem cyc))) ∧
  ∃ n, System_Start env_ok (it_of abc_names) (CreateSystem cyc) =
         (Some (ErrCyclicInvolving n), CreateSystem cyc).
Proof.
  assert (sys_started (CreateSystem cyc) = false) as H1 by reflexivity.
  assert (iter_ok (dep_graph (components (CreateSystem cyc))) (it_of abc_names)) as H2
    by (split_and!; vm_compute; solve_Permutation).
  assert (has_cycle (dep_graph (components (CreateSystem cyc)))) as H3.
  { exists "compA".
    apply (tc_l _ _ "compC"); [exists ["compC"]; split_and!; [vm_compute; reflexivity|left|
      apply (bool_decide_unpack _); vm_compute; reflexivity]|].
    apply (tc_l _ _ "compB"); [exists ["compB"]; split_and!; [vm_compute; reflexivity|left|
      apply (bool_decide_unpack _); vm_compute; reflexivity]|].
    apply tc_once. exists ["compA"]. split_and!; [vm_compute; reflexivity|left|
      apply (bool_decide_unpack _); vm_compute; reflexivity]. }
  split_and!; [exact H1|exact H2|exact H3|].
  exact (C4_cycle_aborts_start env_ok (it_of abc_names) (CreateSystem cyc) H1 H2 H3).
Defined.

(** ** C5 *)

(** C5 (corrected): when some declared dependency name is not registered,
    cycle detection ignores the edges to unregistered names (it computes
    the same as on the graph without them), and order computation fails
    with the missing-dependency error for a declared, unregistered name.
    [System.Start] on a system that is not started returns before any
    lifecycle call, with the state unchanged; its error is that
    missing-dependency error only when the registered edges are acyclic:
    when they also form a cycle, cycle detection runs first and the
    cyclic-dependency error is returned instead. *)
Theorem C5_missing_dependency env it s :
  let g := dep_graph (components s) in
  sys_started s = false → iter_ok g it → missing_dependency g →
  (∀ order, checkCyclicDependencies g order = checkCyclicDependencies (prune g) order) ∧
  (∃ n d, getOrderedComponents g (it_edges it) (it_seed it) = inr (ErrDependencyNotFound d n) ∧
          d ∈ deps_of g n ∧ d ∉ dom g) ∧
  (¬ has_cycle g → ∃ n d, System_Start env it s = (Some (ErrDependencyNotFound d n), s) ∧
                          d ∈ deps_of g n ∧ d ∉ dom g) ∧
  (has_cycle g → ∃ n, System_Start env it s = (Some (ErrCyclicInvolving n), s)).
Proof.
  intros g Hs Hit Hm.
  assert (∃ n d, getOrderedComponents g (it_edges it) (it_seed it) = inr (ErrDependencyNotFound d n) ∧
          d ∈ deps_of g n ∧ d ∉ dom g) as Ho.
  { destruct Hit as (_ & Hie & _). by apply getOrdered_missing. }
  split_and!.
  - intros order. apply checkCyclic_loop_prune.
  - exact Ho.
  - intros Hnc. unfold System_Start. rewrite Hs. fold g.
    rewrite (check_none_of_acyclic g it Hit Hnc).
    destruct Ho as (n & d & Ho & Hd & Hnd). rewrite Ho. eauto.
  - intros Hc. unfold System_Start. rewrite Hs. fold g.
    destruct (check_some_of_cycle g it Hit Hc) as [n Hn]. rewrite Hn. eauto.
Qed.

Lemma C5_witness :
  let g := dep_graph (components (CreateSystem missing_z)) in
  sys_started (CreateSystem missing_z) = false ∧ iter_ok g (it_of ["A"; "B"]) ∧
  missing_dependency g ∧
  ((∀ order, checkCyclicDependencies g order = checkCyclicDependencies (prune g) order) ∧
   (∃ n d, getOrderedComponents g ["A"; "B"] ["A"; "B"] = inr (ErrDependencyNotFound d n) ∧
           d ∈ deps_of g n ∧ d ∉ dom g) ∧
   (¬ has_cycle g → ∃ n d, System_Start env_ok (it_of ["A"; "B"]) (CreateSystem missing_z) =
      (Some (ErrDependencyNotFound d n), CreateSystem missing_z) ∧ d ∈ deps_of g n ∧ d ∉ dom g) ∧
   (has_cycle g → ∃ n, System_Start env_ok (it_of ["A"; "B"]) (CreateSystem missing_z) =
      (Some (ErrCyclicInvolving n), CreateSystem missing_z))).
Proof.
  intros g.
  assert (sys_started (CreateSystem missing_z) = false) as H1 by reflexivity.
  assert (iter_ok g (it_of ["A"; "B"])) as H2 by (split_and!; vm_compute; solve_Permutation).
  assert (missing_dependency g) as H3.
  { exists "A", ["Z"], "Z". split_and!; [vm_compute; reflexivity|left|
      apply (bool_decide_unpack _); vm_compute; reflexivity]. }
  refine (conj H1 (conj H2 (conj H3 _))).
  exact (C5_missing_dependency env_ok (it_of ["A"; "B"]) (CreateSystem missing_z) H1 H2 H3).
Defined.

(** C5, counterexample: ["A"] declares the unregistered ["Z"] and, with
    ["B"], forms a cycle; [System.Start] reports the cycle, not the
    missing dependency. *)
Lemma C5_counterexample :
  System_Start env_ok (it_of ["A"; "B"]) (CreateSystem cyc_missing) =
    (Some (ErrCyclicInvolving "A"), CreateSystem cyc_missing) ∧
  missing_dependency (dep_graph cyc_missing).
Proof.
  split; [vm_compute; reflexivity|].
  exists "A", ["B"; "Z"], "Z". split_and!; [vm_compute; reflexivity|right; left|
    apply (bool_decide_unpack _); vm_compute; reflexivity].
Qed.

(** ** C6 *)

(** C6 (confirmed): when every declared dependency is registered and the
    dependency edges are acyclic, [getOrderedComponents] returns an order of
    all registered names in which every name comes after each of its
    dependencies; and [System.Stop] on a started system recomputes that
    order and calls the lifecycle [Stop] of the started records exactly in
    its reverse, one call per record, each with the system context. *)
Theorem C6_order_and_stop env it s :
  let g := dep_graph (components s) in
  sys_started s = true → wf_keys (components s) → iter_ok g it →
  deps_registered g → ¬ has_cycle g →
  ∃ l, getOrderedComponents g (it_edges it) (it_seed it) = inl l ∧
       l ≡ₚ keys g ∧ topological g l ∧
       let '(_, s') := System_Stop env it s in
       ∃ evs, log s' = log s ++ evs ∧
         map ev_key evs = filter (fun x => started_in (components s) x = true) (reverse l) ∧
         Forall (fun ev => ∃ c out, components s !! ev_key ev = Some c ∧
                                   ev = EvStop (key c) (instance c) (context s) out) evs.
Proof.
  intros g Hs Hwf Hit Hreg Hnc. destruct Hit as (Hic & Hie & His).
  destruct (getOrdered_complete g _ _ Hie His Hreg Hnc) as [l Hl].
  destruct (getOrdered_topo g _ _ l Hie His Hl) as (_ & Hp & Hnd & Htop).
  exists l. split; [done|]. split; [done|]. split; [done|].
  unfold System_Stop. rewrite Hs. simpl. fold g. rewrite Hl.
  assert (∀ x, x ∈ reverse l → x ∈ dom (components s)) as Hdom
    by (intros x; by rewrite elem_of_reverse, perm_keys_dom).
  pose proof (stop_run env (reverse l) s None ltac:(by rewrite reverse_Permutation) Hwf Hdom)
    as Hrun.
  destruct (stop_components env (reverse l) s None) as [err s'].
  destruct Hrun as (_ & _ & _ & evs & Hlog & Hkeys & Hall & _). simpl. eauto.
Qed.

Lemma C6_witness :
  let s := (System_Start env_ok (it_of abc_names) (CreateSystem abc)).2 in
  let g := dep_graph (components s) in
  (sys_started s = true ∧ wf_keys (components s) ∧ iter_ok g (it_of abc_names) ∧
   deps_registered g ∧ ¬ has_cycle g) ∧
  ∃ l, getOrderedComponents g abc_names abc_names = inl l ∧
       l ≡ₚ keys g ∧ topological g l ∧
       let '(_, s') := System_Stop env_stop_fail2 (it_of abc_names) s in
       ∃ evs, log s' = log s ++ evs ∧
         map ev_key evs = filter (fun x => started_in (components s) x = true) (reverse l) ∧
         Forall (fun ev => ∃ c out, components s !! ev_key ev = Some c ∧
                                   ev = EvStop (key c) (instance c) (context s) out) evs.
Proof.
  intros s g.
  assert (sys_started s = true) as H1 by (vm_compute; reflexivity).
  assert (wf_keys (components s)) as H2
    by (unfold wf_keys; apply (bool_decide_unpack _); vm_compute; reflexivity).
  assert (iter_ok g (it_of abc_names)) as H3 by (split_and!; vm_compute; solve_Permutation).
  assert (deps_registered g) as H4
    by (apply deps_registered_alt; apply (bool_decide_unpack _); vm_compute; reflexivity).
  assert (¬ has_cycle g) as H5.
  { apply (check_none_no_cycle g abc_names); [vm_compute; solve_Permutation|].
    vm_compute. reflexivity. }
  split; [split_and!; assumption|].
  exact (C6_order_and_stop env_stop_fail2 (it_of abc_names) s H1 H2 H3 H4 H5).
Defined.

(** ** C7 *)

(** C7 (confirmed): the order returned by [getOrderedComponents] does not
    depend on the iteration orders of its map ranges: when one run returns
    an order, every other run on the same graph returns the same order.
    That order emits, at every step, the lexicographically smallest of the
    names that are ready, i.e. whose dependencies are all emitted
    ([lex_greedy]). *)
Theorem C7_deterministic_lex g e1 s1 e2 s2 l :
  e1 ≡ₚ keys g → s1 ≡ₚ keys g → e2 ≡ₚ keys g → s2 ≡ₚ keys g →
  getOrderedComponents g e1 s1 = inl l →
  getOrderedComponents g e2 s2 = inl l ∧ lex_greedy g [] l.
Proof.
  intros He1 Hs1 He2 Hs2 Hl.
  destruct (getOrdered_inl g e1 s1 l He1 Hs1 Hl) as (Hreg & Hp & Hgr).
  split; [|done].
  unfold getOrderedComponents. pose proof (build_graph_spec g e2 He2) as Hb.
  destruct (build_graph g e2 _ _) as [[graph deg]|err].
  2:{ exfalso. destruct Hb as (n & d & _ & Hd & Hnd). by apply Hnd, (Hreg n). }
  destruct Hb as (_ & Hadj & Hdeg).
  destruct (kahn_loop_spec g graph Hadj (size g) _ (kahn_init g s2 deg Hs2 Hdeg) ltac:(simpl; lia))
    as (_ & _ & rest & Hem & Hgr2).
  simpl in Hem. rewrite Hem. rewrite (lex_greedy_unique g [] rest l Hgr2 Hgr).
  rewrite decide_True; [done|]. rewrite Hp. apply keys_length.
Qed.

Lemma C7_witness :
  (abc_names ≡ₚ keys (dep_graph abc) ∧ abc_names ≡ₚ keys (dep_graph abc) ∧
   ["compC"; "compA"; "compB"] ≡ₚ keys (dep_graph abc) ∧
   ["compB"; "compC"; "compA"] ≡ₚ keys (dep_graph abc) ∧
   getOrderedComponents (dep_graph abc) abc_names abc_names = inl abc_names) ∧
  getOrderedComponents (dep_graph abc) ["compC"; "compA"; "compB"] ["compB"; "compC"; "compA"]
    = inl abc_names ∧ lex_greedy (dep_graph abc) [] abc_names.
Proof.
  assert (abc_names ≡ₚ keys (dep_graph abc)) as H1 by (vm_compute; solve_Permutation).
  assert (["compC"; "compA"; "compB"] ≡ₚ keys (dep_graph abc)) as H2
    by (vm_compute; solve_Permutation).
  assert (["compB"; "compC"; "compA"] ≡ₚ keys (dep_graph abc)) as H3
    by (vm_compute; solve_Permutation).
  assert (getOrderedComponents (dep_graph abc) abc_names abc_names = inl abc_names) as H4
    by (vm_compute; reflexivity).
  split; [split_and!; assumption|].
  exact (C7_deterministic_lex (dep_graph abc) abc_names abc_names
    ["compC"; "compA"; "compB"] ["compB"; "compC"; "compA"] abc_names H1 H1 H2 H3 H4).
Defined.

(** ** C8 *)

Lemma filter_all {A} (P : A → Prop) `{∀ x, Decision (P x)} (l : list A) :
  (∀ x, x ∈ l → P x) → filter P l = l.
Proof.
  induction l as [|y l IH]; intros Hall; [done|].
  rewrite filter_cons_True by (apply Hall; set_solver). f_equal. apply IH. set_solver.
Qed.

Lemma start_keys_app evs1 evs2 : start_keys (evs1 ++ evs2) = start_keys evs1 ++ start_keys evs2.
Proof. apply omap_app. Qed.

Lemma middle_index (l pre post : list string) B j x :
  l = pre ++ B :: post → NoDup l → l !! j = Some x →
  (∃ i, i < j ∧ l !! i = Some B) → x ∈ post.
Proof.
  intros -> Hnd Hj (i & Hi & HiB).
  assert ((pre ++ B :: post) !! length pre = Some B) as Hmid by (rewrite lookup_app_r, Nat.sub_diag by lia; done).
  pose proof (NoDup_lookup _ _ _ _ Hnd HiB Hmid) as ->.
  rewrite lookup_app_r in Hj by lia.
  destruct (j - length pre) as [|k] eqn:Ek; [lia|]. simpl in Hj.
  by apply list_elem_of_lookup_2 in Hj.
Qed.

(** C8 (confirmed): start a freshly created system (every record stored
    under its key, none started). When some lifecycle [Start] fails, for
    a component [B], [System.Start] aborts there with [B]'s name wrapped
    around the error. The computed order is [pre ++ B :: post], where:
    - every name of [pre] has had exactly one lifecycle [Start] call and
      stays started;
    - [B] has had that one failing call and is not started;
    - no name of [post] has had a call, and none is started;
    - every dependency of [B] is in [pre];
    - every component that declares [B] as a dependency is in [post];
    - the system is not started. *)
Theorem C8_start_failure env it m err s' B self ctx e0 :
  wf_keys m → map_Forall (fun _ c => started c = false) m → iter_ok (dep_graph m) it →
  System_Start env it (CreateSystem m) = (err, s') →
  EvStart B self ctx (StartErr e0) ∈ log s' →
  ∃ l pre post,
    getOrderedComponents (dep_graph m) (it_edges it) (it_seed it) = inl l ∧
    l = pre ++ B :: post ∧
    err = Some (ErrFailedToStart B (ErrComponentStart e0)) ∧
    (∀ x, x ∈ pre → occ x (start_keys (log s')) = 1 ∧ started_in (components s') x = true) ∧
    occ B (start_keys (log s')) = 1 ∧ started_in (components s') B = false ∧
    (∀ x, x ∈ post → occ x (start_keys (log s')) = 0 ∧ started_in (components s') x = false) ∧
    (∀ d, d ∈ deps_of (dep_graph m) B → d ∈ pre) ∧
    (∀ x, B ∈ deps_of (dep_graph m) x → x ∈ post) ∧
    sys_started s' = false.
Proof.
  intros Hwf Hfresh Hit Hrun Hev. unfold System_Start in Hrun. simpl in Hrun.
  destruct (checkCyclicDependencies _ _).
  { injection Hrun as <- <-. simpl in Hev. set_solver. }
  destruct (getOrderedComponents _ _ _) as [l|e] eqn:Ho.
  2:{ injection Hrun as <- <-. simpl in Hev. set_solver. }
  destruct Hit as (Hic & Hie & His).
  destruct (getOrdered_topo _ _ _ l Hie His Ho) as (Hreg & Hp & Hnd & Htop).
  assert (∀ x, started_in m x = false) as Hm0.
  { intros x. unfold started_in. destruct (m !! x) as [c|] eqn:E; [by apply (Hfresh x c)|done]. }
  assert (∀ x, x ∈ l → x ∈ dom m) as Hdom by (intros x; by rewrite perm_keys_dom).
  pose proof (start_run env l (CreateSystem m) Hnd Hwf Hdom
    (topological_start_premise _ _ _ Htop)) as Hsr.
  destruct (start_components env l (CreateSystem m)) as [err' s''].
  destruct Hsr as (Hss & Hsh & [(-> & evs & Hlog & Hok & _)|
    (pre & B' & post & cB & ctxB & e1 & evs & Hl & HB & HBs & Hlc & -> & Hlog & Hok & Hkeys & Hon & Hout)]);
    simpl in *.
  - injection Hrun as <- <-. simpl in Hev. rewrite Hlog in Hev. simpl in Hev.
    rewrite Forall_forall in Hok. by specialize (Hok _ Hev).
  - injection Hrun as <- <-. rewrite Hlog in Hev. simpl in Hev.
    apply elem_of_app in Hev as [Hev|Hev].
    { rewrite Forall_forall in Hok. by specialize (Hok _ Hev). }
    apply list_elem_of_singleton in Hev. injection Hev as <- -> -> ->.
    assert (start_keys (log s'') = pre ++ [B]) as Hsk.
    { rewrite Hlog. simpl. rewrite start_keys_app, Hkeys, filter_all; [done|]. intros x _. apply Hm0. }
    rewrite Hl in Hnd. pose proof Hnd as Hnd'.
    apply NoDup_app in Hnd' as (Hndpre & Hdisj & HndB).
    assert (NoDup (pre ++ [B])) as Hnd2.
    { apply NoDup_app. split_and!; [done| |apply NoDup_singleton].
      intros x Hx Hx'. apply list_elem_of_singleton in Hx' as ->. apply (Hdisj B Hx). set_solver. }
    apply NoDup_cons in HndB as [HBpost _].
    exists l, pre, post. split_and!; try done.
    + intros x Hx. rewrite Hsk. split; [apply occ_nodup; [done|set_solver]|by apply Hon].
    + rewrite Hsk. apply occ_nodup; [done|set_solver].
    + unfold started_in. rewrite Hout; [|intros HBp; apply (Hdisj B HBp); set_solver].
      apply Hm0.
    + intros x Hx. rewrite Hsk. split.
      * apply occ_not_in. rewrite elem_of_app, list_elem_of_singleton. intros [Hx'| ->].
        -- apply (Hdisj x Hx'). set_solver.
        -- done.
      * unfold started_in. rewrite Hout; [apply Hm0|]. intros Hx'. apply (Hdisj x Hx'). set_solver.
    + intros d Hd. assert (l !! length pre = Some B) as HlB by (rewrite Hl, lookup_app_r, Nat.sub_diag by lia; done).
      destruct (Htop (length pre) B d HlB Hd) as (i & Hi & Hli).
      rewrite Hl, lookup_app_l in Hli by done. by apply list_elem_of_lookup_2 in Hli.
    + intros x Hx. assert (x ∈ l) as Hxl.
      { apply (perm_keys_dom m l x Hp). rewrite <- dep_graph_dom. by eapply deps_of_dom. }
      apply list_elem_of_lookup_1 in Hxl as [j Hj].
      apply (middle_index l pre post B j x Hl); [by rewrite Hl|done|].
      by apply (Htop j x B).
Qed.

Lemma C8_witness :
  let r := System_Start env_start_fail2 (it_of abc_names) (CreateSystem abc) in
  (wf_keys abc ∧ map_Forall (fun _ c => started c = false) abc ∧
   iter_ok (dep_graph abc) (it_of abc_names) ∧
   System_Start env_start_fail2 (it_of abc_names) (CreateSystem abc) = (r.1, r.2) ∧
   EvStart "compB" 2 {["compA" := 1]} (StartErr (ErrLifecycle 5)) ∈ log r.2) ∧
  ∃ l pre post,
    getOrderedComponents (dep_graph abc) abc_names abc_names = inl l ∧
    l = pre ++ "compB" :: post ∧
    r.1 = Some (ErrFailedToStart "compB" (ErrComponentStart (ErrLifecycle 5))) ∧
    (∀ x, x ∈ pre → occ x (start_keys (log r.2)) = 1 ∧ started_in (components r.2) x = true) ∧
    occ "compB" (start_keys (log r.2)) = 1 ∧ started_in (components r.2) "compB" = false ∧
    (∀ x, x ∈ post → occ x (start_keys (log r.2)) = 0 ∧ started_in (components r.2) x = false) ∧
    (∀ d, d ∈ deps_of (dep_graph abc) "compB" → d ∈ pre) ∧
    (∀ x, "compB" ∈ deps_of (dep_graph abc) x → x ∈ post) ∧
    sys_started r.2 = false.
Proof.
  intros r.
  assert (wf_keys abc) as H1
    by (unfold wf_keys; apply (bool_decide_unpack _); vm_compute; reflexivity).
  assert (map_Forall (fun _ c => started c = false) abc) as H2
    by (apply (bool_decide_unpack _); vm_compute; reflexivity).
  assert (iter_ok (dep_graph abc) (it_of abc_names)) as H3
    by (split_and!; vm_compute; solve_Permutation).
  assert (System_Start env_start_fail2 (it_of abc_names) (CreateSystem abc) = (r.1, r.2)) as H4
    by reflexivity.
  assert (EvStart "compB" 2 {["compA" := 1]} (StartErr (ErrLifecycle 5)) ∈ log r.2) as H5
    by (apply list_elem_of_In; vm_compute; right; left; reflexivity).
  split; [split_and!; assumption|].
  exact (C8_start_failure env_start_fail2 (it_of abc_names) abc r.1 r.2 "compB" 2
           {["compA" := 1]} (ErrLifecycle 5) H1 H2 H3 H4 H5).
Defined.

(** ** C9 *)

Lemma last_stop_error_no_failure last evs :
  stop_failures evs = [] → last_stop_error last evs = last.
Proof.
  revert last. induction evs as [|ev evs IH]; intros last Hf; [done|].
  destruct ev as [k ? ? ?|k ? ? [?|]]; simpl in *; [by apply IH|discriminate|by apply IH].
Qed.

Lemma last_stop_error_last last pre k self ctx e post :
  stop_failures post = [] →
  last_stop_error last (pre ++ EvStop k self ctx (Some e) :: post) =
  Some (ErrFailedToStop k (ErrComponentStop e)).
Proof.
  intros Hf. unfold last_stop_error. rewrite foldl_app. simpl.
  by apply last_stop_error_no_failure.
Qed.

(** C9 (confirmed): stop a started system reached from a creation through
    any [Start] and [Stop] calls. [System.Stop] calls the lifecycle [Stop]
    of every component exactly once, in the reverse of the computed order,
    whatever the earlier calls return. Its result is [nil] when no call
    failed. Otherwise it is the last failure, wrapped with its component's
    name. The system is not started afterwards. *)
Theorem C9_stop_all env it m0 s :
  wf_keys m0 → reachable m0 s → sys_started s = true →
  iter_ok (dep_graph (components s)) it →
  let '(err, s') := System_Stop env it s in
  sys_started s' = false ∧
  ∃ l evs,
    getOrderedComponents (dep_graph (components s)) (it_edges it) (it_seed it) = inl l ∧
    l ≡ₚ keys (dep_graph (components s)) ∧
    log s' = log s ++ evs ∧ map ev_key evs = reverse l ∧
    Forall (fun ev => ∃ c out, components s !! ev_key ev = Some c ∧
                               ev = EvStop (key c) (instance c) (context s) out) evs ∧
    (stop_failures evs = [] → err = None) ∧
    (∀ pre k self ctx e post, evs = pre ++ EvStop k self ctx (Some e) :: post →
       stop_failures post = [] → err = Some (ErrFailedToStop k (ErrComponentStop e))).
Proof.
  intros Hwf0 Hr Hs Hit.
  destruct (reachable_inv m0 s Hwf0 Hr) as [Hsh Hst].
  destruct (Hst Hs) as (Hreg & Hnc & Hall).
  assert (dep_graph m0 = dep_graph (components s)) as Hg by (by apply same_shape_dep_graph).
  assert (wf_keys (components s)) as Hwf by (by apply (same_shape_wf_keys m0)).
  rewrite Hg in Hreg, Hnc.
  set (g := dep_graph (components s)) in *.
  destruct Hit as (Hic & Hie & His).
  destruct (getOrdered_complete g _ _ Hie His Hreg Hnc) as [l Hl].
  destruct (getOrdered_topo g _ _ l Hie His Hl) as (_ & Hp & Hnd & _).
  unfold System_Stop. rewrite Hs. simpl. fold g. rewrite Hl.
  assert (∀ x, x ∈ reverse l → x ∈ dom (components s)) as Hdom
    by (intros x; by rewrite elem_of_reverse, perm_keys_dom).
  pose proof (stop_run env (reverse l) s None ltac:(by rewrite reverse_Permutation) Hwf Hdom)
    as Hrun.
  destruct (stop_components env (reverse l) s None) as [err s'].
  destruct Hrun as (_ & _ & _ & evs & Hlog & Hkeys & Hform & Herr & _). simpl.
  split; [done|]. exists l, evs. split_and!; try done.
  - rewrite Hkeys. apply filter_all. intros x Hx. apply Hall.
    apply (same_shape_dom _ _ Hsh). by apply Hdom.
  - intros Hf. rewrite Herr. by apply last_stop_error_no_failure.
  - intros pre k self ctx e post -> Hf. rewrite Herr. by apply last_stop_error_last.
Qed.

Lemma C9_witness :
  let s := (System_Start env_ok (it_of abc_names) (CreateSystem abc)).2 in
  (wf_keys abc ∧ reachable abc s ∧ sys_started s = true ∧
   iter_ok (dep_graph (components s)) (it_of abc_names)) ∧
  let '(err, s') := System_Stop env_stop_fail2 (it_of abc_names) s in
  sys_started s' = false ∧
  ∃ l evs,
    getOrderedComponents (dep_graph (components s)) abc_names abc_names = inl l ∧
    l ≡ₚ keys (dep_graph (components s)) ∧
    log s' = log s ++ evs ∧ map ev_key evs = reverse l ∧
    Forall (fun ev => ∃ c out, components s !! ev_key ev = Some c ∧
                               ev = EvStop (key c) (instance c) (context s) out) evs ∧
    (stop_failures evs = [] → err = None) ∧
    (∀ pre k self ctx e post, evs = pre ++ EvStop k self ctx (Some e) :: post →
       stop_failures post = [] → err = Some (ErrFailedToStop k (ErrComponentStop e))).
Proof.
  intros s.
  assert (wf_keys abc) as H1
    by (unfold wf_keys; apply (bool_decide_unpack _); vm_compute; reflexivity).
  assert (iter_ok (dep_graph (components (CreateSystem abc))) (it_of abc_names)) as H0
    by (split_and!; vm_compute; solve_Permutation).
  assert (reachable abc s) as H2
    by exact (reach_start abc env_ok (it_of abc_names) (CreateSystem abc) (reach_init abc) H0).
  assert (sys_started s = true) as H3 by (vm_compute; reflexivity).
  assert (iter_ok (dep_graph (components s)) (it_of abc_names)) as H4
    by (split_and!; vm_compute; solve_Permutation).
  split; [split_and!; assumption|].
  exact (C9_stop_all env_stop_fail2 (it_of abc_names) abc s H1 H2 H3 H4).
Defined.

(** ** C10 *)

(** C10 (confirmed): stop a started system reached from a creation, and
    let exactly one lifecycle [Stop] fail, for the component [b]. Then:
    - [b]'s record still reports [IsStarted() == true];
    - the system is not started.
    A later [System.Start] whose lifecycle [Start] calls all succeed then:
    - succeeds and marks the system started;
    - calls the lifecycle [Start] of every component of its order except
      [b], each exactly once;
    - does not call [b]'s lifecycle [Start]: the dependency context of its
      dependents holds [b]'s stored instance. *)
Theorem C10_stop_failure_restart env1 env2 it1 it2 m0 s err1 s1 b :
  wf_keys m0 → reachable m0 s → sys_started s = true →
  iter_ok (dep_graph (components s)) it1 → iter_ok (dep_graph (components s)) it2 →
  (∀ self ctx tr e, lc_start env2 self ctx tr ≠ StartErr e) →
  System_Stop env1 it1 s = (err1, s1) →
  stop_failures (drop (length (log s)) (log s1)) = [b] →
  (∃ cb, components s1 !! b = Some cb ∧ IsStarted cb = true) ∧ sys_started s1 = false ∧
  let '(err2, s2) := System_Start env2 it2 s1 in
  err2 = None ∧ sys_started s2 = true ∧
  ∃ l2, getOrderedComponents (dep_graph (components s)) (it_edges it2) (it_seed it2) = inl l2 ∧
    start_keys (drop (length (log s1)) (log s2)) = filter (fun x => x ≠ b) l2 ∧
    ∃ cb, components s !! b = Some cb ∧ context s2 !! b = Some (instance cb).
Proof.
  intros Hwf0 Hr Hs Hit1 Hit2 Hnofail Hstop Hf.
  destruct (reachable_inv m0 s Hwf0 Hr) as [Hsh Hst].
  destruct (Hst Hs) as (Hreg & Hnc & Hall).
  assert (dep_graph m0 = dep_graph (components s)) as Hg by (by apply same_shape_dep_graph).
  assert (wf_keys (components s)) as Hwf by (by apply (same_shape_wf_keys m0)).
  rewrite Hg in Hreg, Hnc.
  set (g := dep_graph (components s)) in *.
  assert (∀ x, x ∈ dom (components s) → started_in (components s) x = true) as Hall'
    by (intros x Hx; apply Hall; by apply (same_shape_dom _ _ Hsh)).
  (* the stop run *)
  destruct Hit1 as (Hic1 & Hie1 & His1).
  destruct (getOrdered_complete g _ _ Hie1 His1 Hreg Hnc) as [l1 Hl1].
  destruct (getOrdered_topo g _ _ l1 Hie1 His1 Hl1) as (_ & Hp1 & Hnd1 & _).
  unfold System_Stop in Hstop. rewrite Hs in Hstop. simpl in Hstop. fold g in Hstop.
  rewrite Hl1 in Hstop.
  assert (∀ x, x ∈ reverse l1 → x ∈ dom (components s)) as Hdom1
    by (intros x; by rewrite elem_of_reverse, perm_keys_dom).
  assert (NoDup (reverse l1)) as Hndr by (by rewrite reverse_Permutation).
  pose proof (stop_run env1 (reverse l1) s None Hndr Hwf Hdom1) as Hrun.
  destruct (stop_components env1 (reverse l1) s None) as [err s'].
  injection Hstop as <- <-.
  destruct Hrun as (_ & Hctx & Hsh1 & evs & Hlog & Hkeys & Hform & _ & Hcomp). simpl in *.
  rewrite Hlog, drop_app_length in Hf.
  rewrite filter_all in Hkeys
    by (intros x Hx; apply Hall'; by apply Hdom1).
  assert (b ∈ stop_failures evs) as Hbf by (rewrite Hf; set_solver).
  assert (b ∉ stop_ok_keys evs) as Hbok
    by (apply stop_keys_disjoint; [by rewrite Hkeys|done]).
  assert (b ∈ dom (components s)) as Hbd
    by (apply Hdom1; rewrite <- Hkeys; by apply stop_failures_sub).
  apply elem_of_dom in Hbd as [cb Hcb].
  assert (started cb = true) as Hcbs
    by (rewrite <- (started_in_lookup _ _ _ Hcb); apply Hall'; by apply elem_of_dom).
  assert (components s' !! b = Some cb) as Hcb'
    by (rewrite (Hcomp b cb Hcb); by rewrite decide_False).
  assert (∀ x, x ∈ dom (components s) → x ≠ b → started_in (components s') x = false) as Hoff.
  { intros x Hx Hxb. apply elem_of_dom in Hx as [c Hc].
    assert (x ∈ map ev_key evs) as Hxk
      by (rewrite Hkeys, elem_of_reverse, (perm_keys_dom _ _ _ Hp1); by apply elem_of_dom).
    assert (Forall (fun ev => ∃ k self ctx out, ev = EvStop k self ctx out) evs) as Hstops.
    { eapply Forall_impl; [exact Hform|]. intros ev (c0 & out & _ & ->). eauto. }
    destruct (stop_keys_split evs x Hstops Hxk) as [Hok|Hfx].
    - rewrite (started_in_lookup _ _ _ (Hcomp x c Hc)), decide_True by done. done.
    - rewrite Hf in Hfx. set_solver. }
  split; [exists cb; split; [done|by unfold IsStarted]|]. split; [done|].
  (* the restart *)
  assert (dep_graph (components s') = g) as Hg1
    by (symmetry; by apply same_shape_dep_graph).
  assert (wf_keys (components s')) as Hwf1 by (by apply (same_shape_wf_keys (components s))).
  unfold System_Start. simpl. rewrite Hg1.
  rewrite (check_none_of_acyclic g it2 Hit2 Hnc).
  destruct Hit2 as (Hic2 & Hie2 & His2).
  destruct (getOrdered_complete g _ _ Hie2 His2 Hreg Hnc) as [l2 Hl2].
  destruct (getOrdered_topo g _ _ l2 Hie2 His2 Hl2) as (_ & Hp2 & Hnd2 & Htop2).
  rewrite Hl2.
  set (s1 := MkSystem (components s') false (context s') (log s')).
  assert (∀ x, x ∈ l2 → x ∈ dom (components s1)) as Hdom2.
  { intros x Hx. simpl. apply (same_shape_dom _ _ Hsh1). by apply (perm_keys_dom _ l2). }
  assert (topological (dep_graph (components s1)) l2) as Htop2' by (simpl; by rewrite Hg1).
  pose proof (start_run env2 l2 s1 Hnd2 Hwf1 Hdom2 (topological_start_premise _ _ _ Htop2'))
    as Hsr.
  destruct (start_components env2 l2 s1) as [err2 s2].
  destruct Hsr as (_ & _ & [(-> & evs2 & Hlog2 & _ & Hkeys2 & _ & _ & _ & Hctx2)|
    (pre & B & post & cB & ctx & e0 & evs2 & _ & _ & _ & Hlc & _)]).
  2:{ exfalso. by apply (Hnofail _ _ _ _ Hlc). }
  simpl. split_and!; [done|done|]. exists l2. split; [done|]. split.
  - simpl in Hlog2. rewrite Hlog2, drop_app_length, Hkeys2. simpl.
    apply filter_ext_in. intros x Hx. split.
    + intros Hx' ->. by rewrite (started_in_lookup _ _ _ Hcb'), Hcbs in Hx'.
    + intros Hxb. apply Hoff; [|done]. by apply (perm_keys_dom _ l2).
  - exists cb. split; [done|]. apply (Hctx2 b cb); [|done|done].
    apply (perm_keys_dom _ l2 b Hp2). by apply elem_of_dom.
Qed.

Lemma C10_witness :
  let s := (System_Start env_ok (it_of abc_names) (CreateSystem abc)).2 in
  let r := System_Stop env_stop_fail2 (it_of abc_names) s in
  (wf_keys abc ∧ reachable abc s ∧ sys_started s = true ∧
   iter_ok (dep_graph (components s)) (it_of abc_names) ∧
   (∀ self ctx tr e, lc_start env_ok self ctx tr ≠ StartErr e) ∧
   System_Stop env_stop_fail2 (it_of abc_names) s = (r.1, r.2) ∧
   stop_failures (drop (length (log s)) (log r.2)) = ["compB"]) ∧
  (∃ cb, components r.2 !! "compB" = Some cb ∧ IsStarted cb = true) ∧ sys_started r.2 = false ∧
  let '(err2, s2) := System_Start env_ok (it_of abc_names) r.2 in
  err2 = None ∧ sys_started s2 = true ∧
  ∃ l2, getOrderedComponents (dep_graph (components s)) abc_names abc_names = inl l2 ∧
    start_keys (drop (length (log r.2)) (log s2)) = filter (fun x => x ≠ "compB") l2 ∧
    ∃ cb, components s !! "compB" = Some cb ∧ context s2 !! "compB" = Some (instance cb).
Proof.
  intros s r.
  assert (wf_keys abc) as H1
    by (unfold wf_keys; apply (bool_decide_unpack _); vm_compute; reflexivity).
  assert (iter_ok (dep_graph (components (CreateSystem abc))) (it_of abc_names)) as H0
    by (split_and!; vm_compute; solve_Permutation).
  assert (reachable abc s) as H2
    by exact (reach_start abc env_ok (it_of abc_names) (CreateSystem abc) (reach_init abc) H0).
  assert (sys_started s = true) as H3 by (vm_compute; reflexivity).
  assert (iter_ok (dep_graph (components s)) (it_of abc_names)) as H4
    by (split_and!; vm_compute; solve_Permutation).
  assert (∀ self ctx tr e, lc_start env_ok self ctx tr ≠ StartErr e) as H5
    by (intros self ctx tr e; simpl; discriminate).
  assert (System_Stop env_stop_fail2 (it_of abc_names) s = (r.1, r.2)) as H6 by reflexivity.
  assert (stop_failures (drop (length (log s)) (log r.2)) = ["compB"]) as H7
    by (vm_compute; reflexivity).
  split; [split_and!; assumption|].
  exact (C10_stop_failure_restart env_stop_fail2 env_ok (it_of abc_names) (it_of abc_names)
           abc s r.1 r.2 "compB" H1 H2 H3 H4 H4 H5 H6 H7).
Defined.

(** * Further properties of the code *)

(** ** GetContext *)

Lemma copy_context_notin entries : ∀ ctx k,
  k ∉ entries.*1 → copy_context entries ctx !! k = ctx !! k.
Proof.
  induction entries as [|[k' v'] rest IH]; intros ctx k Hk; [done|]. simpl in *.
  rewrite IH by set_solver. rewrite lookup_insert_ne; [done|set_solver].
Qed.

Lemma copy_context_in entries : ∀ ctx k v,
  NoDup entries.*1 → (k, v) ∈ entries → copy_context entries ctx !! k = Some v.
Proof.
  induction entries as [|[k' v'] rest IH]; intros ctx k v Hnd Hin; [set_solver|]. simpl in *.
  apply NoDup_cons in Hnd as [Hk' Hnd]. apply elem_of_cons in Hin as [Heq|Hin].
  - injection Heq as -> ->. rewrite copy_context_notin by done. apply lookup_insert_eq.
  - by apply IH.
Qed.

(** X1: whatever order the range over [s.context] takes, the copy returned
    by [GetContext] is equal to the system context. *)
Theorem GetContext_copy s entries :
  entries ≡ₚ map_to_list (context s) → GetContext s entries = context s.
Proof.
  intros Hp. unfold GetContext. apply map_eq. intros k.
  assert (NoDup entries.*1) as Hnd.
  { rewrite Hp. apply NoDup_fst_map_to_list. }
  destruct (context s !! k) as [v|] eqn:Hk.
  - apply copy_context_in; [done|]. rewrite Hp. by apply elem_of_map_to_list.
  - rewrite copy_context_notin; [apply lookup_empty|].
    intros Hin. apply list_elem_of_fmap in Hin as ([k' v] & Hkk & Hin). simpl in Hkk. subst k'.
    rewrite Hp, elem_of_map_to_list in Hin. congruence.
Qed.

Lemma GetContext_copy_witness :
  let s := (System_Start env_ok (it_of abc_names) (CreateSystem abc)).2 in
  let entries := [("compC", 3); ("compA", 1); ("compB", 2)] in
  entries ≡ₚ map_to_list (context s) ∧ GetContext s entries = context s.
Proof.
  intros s entries.
  assert (entries ≡ₚ map_to_list (context s)) as H1 by (vm_compute; solve_Permutation).
  split; [exact H1|]. exact (GetContext_copy s entries H1).
Defined.

(** ** Cycle detection *)

Lemma checkCyclic_loop_error_in g order : ∀ vis rs e,
  checkCyclic_loop g order vis rs = Some e → ∃ n, e = ErrCyclicInvolving n ∧ n ∈ order.
Proof.
  induction order as [|a order IH]; intros vis rs e Heq; simpl in Heq; [done|].
  destruct (negb (flag vis a)).
  - destruct (isCyclic g (size g) a vis rs) as [[b v] r].
    destruct b; [injection Heq as <-; exists a; set_solver|].
    destruct (IH _ _ _ Heq) as (n & -> & Hn). exists n. set_solver.
  - destruct (IH _ _ _ Heq) as (n & -> & Hn). exists n. set_solver.
Qed.

(** X2: whatever the order of the range over [s.components],
    [checkCyclicDependencies] returns [nil] exactly when the dependency
    edges among registered names are acyclic; otherwise it returns the
    cyclic-dependency error naming a registered component. *)
Theorem checkCyclicDependencies_spec g order :
  order ≡ₚ keys g →
  (checkCyclicDependencies g order = None ↔ ¬ has_cycle g) ∧
  (∀ e, checkCyclicDependencies g order = Some e → ∃ n, e = ErrCyclicInvolving n ∧ n ∈ dom g).
Proof.
  intros Hp. split; [split|].
  - by apply check_none_no_cycle.
  - intros Hnc. by apply (check_none_of_acyclic g (MkIter order order order)).
  - intros e He. destruct (checkCyclic_loop_error_in g order ∅ ∅ e He) as (n & -> & Hn).
    exists n. split; [done|]. by rewrite <- (iter_perm_elem g order n Hp).
Qed.

Lemma checkCyclicDependencies_spec_witness :
  ["compB"; "compC"; "compA"] ≡ₚ keys (dep_graph cyc) ∧
  (checkCyclicDependencies (dep_graph cyc) ["compB"; "compC"; "compA"] = None ↔
     ¬ has_cycle (dep_graph cyc)) ∧
  (∀ e, checkCyclicDependencies (dep_graph cyc) ["compB"; "compC"; "compA"] = Some e →
     ∃ n, e = ErrCyclicInvolving n ∧ n ∈ dom (dep_graph cyc)).
Proof.
  assert (["compB"; "compC"; "compA"] ≡ₚ keys (dep_graph cyc)) as H1
    by (vm_compute; solve_Permutation).
  split; [exact H1|]. exact (checkCyclicDependencies_spec _ _ H1).
Defined.

(** ** Outcomes of the ordering *)

(** A topological order of all registered names leaves no cycle. *)
Lemma topological_tc g l : NoDup l → topological g l → (∀ x, x ∈ dom g → x ∈ l) →
  ∀ x y, tc (edge g) x y → ∀ i j, l !! i = Some x → l !! j = Some y → j < i.
Proof.
  intros Hnd Htop Hall x y Ht. induction Ht as [x y Hxy|x y z Hxy Ht IH]; intros i j Hi Hj.
  - destruct Hxy as (ds & Hx & Hd & _).
    destruct (Htop i x y Hi) as (k & Hk & Hky); [unfold deps_of; by rewrite Hx|].
    by rewrite (NoDup_lookup _ _ _ _ Hnd Hj Hky).
  - destruct Hxy as (ds & Hx & Hd & Hdom).
    destruct (Htop i x y Hi) as (k & Hk & Hky); [unfold deps_of; by rewrite Hx|].
    specialize (IH k j Hky Hj). lia.
Qed.

Lemma topological_acyclic g l : NoDup l → topological g l → (∀ x, x ∈ dom g → x ∈ l) →
  ¬ has_cycle g.
Proof.
  intros Hnd Htop Hall (x & Hx).
  assert (x ∈ l) as Hxl by (apply Hall; by eapply tc_edge_dom).
  apply list_elem_of_lookup_1 in Hxl as [i Hi].
  pose proof (topological_tc g l Hnd Htop Hall x x Hx i i Hi Hi). lia.
Qed.

Lemma getOrdered_inl_acyclic g e s l : e ≡ₚ keys g → s ≡ₚ keys g →
  getOrderedComponents g e s = inl l → deps_registered g ∧ ¬ has_cycle g.
Proof.
  intros He Hs Hl. destruct (getOrdered_topo g e s l He Hs Hl) as (Hreg & Hp & Hnd & Htop).
  split; [done|]. apply (topological_acyclic g l Hnd Htop).
  intros x Hx. rewrite Hp. unfold keys. by rewrite elem_of_elements.
Qed.

(** X3: whatever the orders of its two map ranges,
    [getOrderedComponents] returns an order exactly when every declared
    dependency is registered and the graph is acyclic; the
    missing-dependency error exactly when some declared dependency is not
    registered; and its own cyclic-dependency error exactly when every
    dependency is registered and the graph has a cycle. *)
Theorem getOrderedComponents_outcomes g e s :
  e ≡ₚ keys g → s ≡ₚ keys g →
  ((∃ l, getOrderedComponents g e s = inl l) ↔ deps_registered g ∧ ¬ has_cycle g) ∧
  ((∃ n d, getOrderedComponents g e s = inr (ErrDependencyNotFound d n)) ↔ missing_dependency g) ∧
  (getOrderedComponents g e s = inr ErrCyclic ↔ deps_registered g ∧ has_cycle g).
Proof.
  intros He Hs.
  assert (has_cycle g ∨ ¬ has_cycle g) as Hdec.
  { destruct (checkCyclicDependencies g e) as [err|] eqn:Hc.
    - left. eapply checkCyclic_sound; [|exact Hc]. intros n. by apply (iter_perm_elem g e n He).
    - right. by apply (check_none_no_cycle g e He). }
  split_and!; split.
  - intros [l Hl]. by apply (getOrdered_inl_acyclic g e s l).
  - intros [Hreg Hnc]. by apply getOrdered_complete.
  - intros (n & d & Hnd). destruct (getOrdered_inr g e s _ He Hnd) as [(n' & d' & Heq & Hd & Hdd)|[? _]];
      [|discriminate].
    injection Heq as -> ->. unfold deps_of in Hd. destruct (g !! n') as [ds|] eqn:Hn; [|set_solver].
    exists n', ds, d'. done.
  - intros Hm. destruct (getOrdered_missing g e s He Hm) as (n & d & Hnd & _). eauto.
  - intros Hc. destruct (getOrdered_inr g e s _ He Hc) as [(n & d & ? & _)|[_ Hreg]]; [discriminate|].
    split; [done|]. destruct Hdec as [?|Hnc]; [done|].
    destruct (getOrdered_complete g e s He Hs Hreg Hnc) as [l Hl]. congruence.
  - intros [Hreg Hc]. destruct (getOrderedComponents g e s) as [l|err] eqn:Hg.
    + exfalso. by destruct (getOrdered_inl_acyclic g e s l He Hs Hg).
    + destruct (getOrdered_inr g e s _ He Hg) as [(n & d & _ & Hd & Hdd)|[-> _]]; [|done].
      exfalso. apply Hdd. by apply (Hreg n).
Qed.

Lemma getOrderedComponents_outcomes_witness :
  let g := dep_graph cyc_missing in
  (["B"; "A"] ≡ₚ keys g ∧ ["A"; "B"] ≡ₚ keys g) ∧
  ((∃ l, getOrderedComponents g ["B"; "A"] ["A"; "B"] = inl l) ↔ deps_registered g ∧ ¬ has_cycle g) ∧
  ((∃ n d, getOrderedComponents g ["B"; "A"] ["A"; "B"] = inr (ErrDependencyNotFound d n)) ↔
     missing_dependency g) ∧
  (getOrderedComponents g ["B"; "A"] ["A"; "B"] = inr ErrCyclic ↔ deps_registered g ∧ has_cycle g).
Proof.
  intros g.
  assert (["B"; "A"] ≡ₚ keys g) as H1 by (vm_compute; solve_Permutation).
  assert (["A"; "B"] ≡ₚ keys g) as H2 by (vm_compute; solve_Permutation).
  split; [split; assumption|]. exact (getOrderedComponents_outcomes g _ _ H1 H2).
Defined.

(** ** The missing-dependency error of the ordering *)

Lemma add_edges_err g name : ∀ ds adj deg err,
  add_edges g name ds adj deg = inr err ↔
  ∃ dpre d dpost, ds = dpre ++ d :: dpost ∧ (∀ d', d' ∈ dpre → d' ∈ dom g) ∧ (d ∉ dom g) ∧
    err = ErrDependencyNotFound d name.
Proof.
  induction ds as [|dep ds IH]; intros adj deg err; simpl; split.
  - done.
  - intros ([|? ?] & ? & ? & Heq & _); discriminate.
  - destruct (g !! dep) eqn:Hg.
    + intros Heq. destruct (proj1 (IH _ _ _) Heq) as (dpre & d & dpost & -> & Hpre & Hd & ->).
      exists (dep :: dpre), d, dpost. split_and!; [done| |done|done].
      intros d' Hd'. apply elem_of_cons in Hd' as [->|Hd']; [apply elem_of_dom; eauto|auto].
    + intros [= <-]. exists [], dep, ds. split_and!; [done|set_solver| |done].
      by apply not_elem_of_dom.
  - intros ([|d0 dpre] & d & dpost & Heq & Hpre & Hd & ->); simpl in Heq; injection Heq as -> ->.
    + apply not_elem_of_dom in Hd. by rewrite Hd.
    + assert (d0 ∈ dom g) as Hd0 by (apply Hpre; set_solver).
      apply elem_of_dom in Hd0 as [ds0 ->]. apply IH.
      exists dpre, d, dpost. split_and!; [done| |done|done]. intros d' Hd'. apply Hpre. set_solver.
Qed.

Lemma add_edges_ok g name : ∀ ds adj deg,
  (∀ d, d ∈ ds → d ∈ dom g) → ∃ adj' deg', add_edges g name ds adj deg = inl (adj', deg').
Proof.
  induction ds as [|dep ds IH]; intros adj deg Hall; simpl; [eauto|].
  assert (dep ∈ dom g) as Hd by (apply Hall; set_solver).
  apply elem_of_dom in Hd as [? ->]. apply IH. intros d Hd. apply Hall. set_solver.
Qed.

Lemma build_graph_err g : ∀ names adj deg err,
  build_graph g names adj deg = inr err ↔
  ∃ pre n post dpre d dpost, names = pre ++ n :: post ∧
    (∀ x d', x ∈ pre → d' ∈ deps_of g x → d' ∈ dom g) ∧
    deps_of g n = dpre ++ d :: dpost ∧ (∀ d', d' ∈ dpre → d' ∈ dom g) ∧ (d ∉ dom g) ∧
    err = ErrDependencyNotFound d n.
Proof.
  induction names as [|a names IH]; intros adj deg err; simpl; split.
  - done.
  - intros ([|? ?] & ? & ? & ? & ? & ? & Heq & _); discriminate.
  - destruct (add_edges g a (default [] (g !! a)) adj deg) as [[gr dg]|e] eqn:Ha.
    + intros Heq. destruct (proj1 (IH _ _ _) Heq)
        as (pre & n & post & dpre & d & dpost & -> & Hpre & Hn & Hdpre & Hd & ->).
      destruct (add_edges_inl g a _ _ _ _ _ Ha) as (Hreg & _).
      exists (a :: pre), n, post, dpre, d, dpost. split_and!; try done.
      intros x d' Hx Hd'. apply elem_of_cons in Hx as [->|Hx]; [by apply Hreg|eauto].
    + intros [= <-]. destruct (proj1 (add_edges_err g a _ _ _ _) Ha)
        as (dpre & d & dpost & Hds & Hdpre & Hd & ->).
      exists [], a, names, dpre, d, dpost. split_and!; try done. set_solver.
  - intros ([|x pre] & n & post & dpre & d & dpost & Heq & Hpre & Hn & Hdpre & Hd & ->);
      simpl in Heq; injection Heq as -> ->.
    + replace (add_edges g n (default [] (g !! n)) adj deg) with
        (inr (A := gmap string (list string) * gmap string Z) (ErrDependencyNotFound d n)); [done|].
      symmetry. apply add_edges_err. exists dpre, d, dpost. done.
    + destruct (add_edges_ok g x (default [] (g !! x)) adj deg) as (adj' & deg' & ->).
      { intros d' Hd'. apply (Hpre x d'); [set_solver|done]. }
      apply IH. exists pre, n, post, dpre, d, dpost. split_and!; try done.
      intros y d' Hy Hd'. apply (Hpre y d'); [set_solver|done].
Qed.

(** X4: [getOrderedComponents] returns the missing-dependency error for
    [d] and [n] exactly when, in the order of the range that fills the
    graph, [n] is the first component with an unregistered dependency, and
    [d] is the first unregistered name in [n]'s dependency list. *)
Theorem getOrderedComponents_first_missing g e s d n :
  getOrderedComponents g e s = inr (ErrDependencyNotFound d n) ↔
  ∃ pre post dpre dpost, e = pre ++ n :: post ∧
    (∀ x d', x ∈ pre → d' ∈ deps_of g x → d' ∈ dom g) ∧
    deps_of g n = dpre ++ d :: dpost ∧ (∀ d', d' ∈ dpre → d' ∈ dom g) ∧ d ∉ dom g.
Proof.
  unfold getOrderedComponents. split.
  - destruct (build_graph g e _ _) as [[graph inDegree]|err] eqn:Hb.
    + case_decide; discriminate.
    + intros [= ->]. destruct (proj1 (build_graph_err g e _ _ _) Hb)
        as (pre & n' & post & dpre & d' & dpost & -> & Hpre & Hn & Hdpre & Hd & Heq).
      injection Heq as -> ->. exists pre, post, dpre, dpost. done.
  - intros (pre & post & dpre & dpost & He & Hpre & Hn & Hdpre & Hd).
    replace (build_graph g e _ _) with
      (inr (A := gmap string (list string) * gmap string Z) (ErrDependencyNotFound d n)); [done|].
    symmetry. apply build_graph_err. exists pre, n, post, dpre, d, dpost. done.
Qed.

(** ** The errors of Start *)

(** X5: on a system whose records are stored under their keys,
    [System.Start] returns one of three errors:
    - the cyclic-dependency error of the cycle check, when there is a
      cycle;
    - the missing-dependency error, when a declared dependency is not
      registered and there is no cycle;
    - the failure of a lifecycle [Start], wrapped with its component's
      name.
    It never returns the cyclic-dependency error of the ordering, the
    "not started" error of the dependency loop, or a nil dereference. *)
Theorem System_Start_errors env it s e s' :
  let g := dep_graph (components s) in
  wf_keys (components s) → iter_ok g it → System_Start env it s = (Some e, s') →
  (∃ n, e = ErrCyclicInvolving n ∧ has_cycle g) ∨
  (∃ d n, e = ErrDependencyNotFound d n ∧ d ∈ deps_of g n ∧ (d ∉ dom g) ∧ ¬ has_cycle g) ∨
  (∃ n e0, e = ErrFailedToStart n (ErrComponentStart e0)).
Proof.
  intros g Hwf Hit Hrun. unfold System_Start in Hrun.
  destruct (sys_started s); [discriminate|]. fold g in Hrun.
  destruct Hit as (Hic & Hie & His).
  destruct (checkCyclicDependencies g (it_check it)) as [e1|] eqn:Hc.
  { injection Hrun as <- _. left. destruct (checkCyclic_error_shape g _ e1 Hc) as [n ->].
    exists n. split; [done|]. eapply checkCyclic_sound; [|exact Hc].
    intros x. by apply (iter_perm_elem g _ x Hic). }
  assert (¬ has_cycle g) as Hnc by (by apply (check_none_no_cycle g (it_check it))).
  destruct (getOrderedComponents g (it_edges it) (it_seed it)) as [l|e2] eqn:Ho.
  2:{ injection Hrun as -> _. right; left.
      destruct (getOrdered_inr g _ _ _ Hie Ho) as [(n & d & -> & Hd & Hdd)|[-> Hreg]].
      - exists d, n. done.
      - exfalso. destruct (getOrdered_complete g _ _ Hie His Hreg Hnc) as [l Hl]. congruence. }
  destruct (getOrdered_topo g _ _ l Hie His Ho) as (Hreg & Hp & Hnd & Htop).
  assert (∀ x, x ∈ l → x ∈ dom (components s)) as Hdom by (intros x; by rewrite perm_keys_dom).
  pose proof (start_run env l s Hnd Hwf Hdom (topological_start_premise _ _ _ Htop)) as Hsr.
  destruct (start_components env l s) as [err s''].
  destruct Hsr as (_ & _ & [(-> & _)|(pre & B & post & cB & ctx & e0 & evs & _ & _ & _ & _ & -> & _)]).
  - discriminate.
  - injection Hrun as <- _. right; right. eauto.
Qed.

Lemma System_Start_errors_witness :
  let r := System_Start env_start_fail2 (it_of abc_names) (CreateSystem abc) in
  (wf_keys abc ∧ iter_ok (dep_graph abc) (it_of abc_names) ∧
   System_Start env_start_fail2 (it_of abc_names) (CreateSystem abc) = (Some (ErrFailedToStart "compB" (ErrComponentStart (ErrLifecycle 5))), r.2)) ∧
  ((∃ n, ErrFailedToStart "compB" (ErrComponentStart (ErrLifecycle 5)) = ErrCyclicInvolving n ∧
      has_cycle (dep_graph abc)) ∨
   (∃ d n, ErrFailedToStart "compB" (ErrComponentStart (ErrLifecycle 5)) = ErrDependencyNotFound d n ∧
      d ∈ deps_of (dep_graph abc) n ∧ (d ∉ dom (dep_graph abc)) ∧ ¬ has_cycle (dep_graph abc)) ∨
   (∃ n e0, ErrFailedToStart "compB" (ErrComponentStart (ErrLifecycle 5)) =
      ErrFailedToStart n (ErrComponentStart e0))).
Proof.
  intros r.
  assert (wf_keys abc) as H1
    by (unfold wf_keys; apply (bool_decide_unpack _); vm_compute; reflexivity).
  assert (iter_ok (dep_graph abc) (it_of abc_names)) as H2
    by (split_and!; vm_compute; solve_Permutation).
  assert (System_Start env_start_fail2 (it_of abc_names) (CreateSystem abc) =
    (Some (ErrFailedToStart "compB" (ErrComponentStart (ErrLifecycle 5))), r.2)) as H3
    by (vm_compute; reflexivity).
  split; [split_and!; assumption|].
  exact (System_Start_errors env_start_fail2 (it_of abc_names) (CreateSystem abc) _ r.2 H1 H2 H3).
Defined.

(** ** A successful Start *)

Lemma start_components_frame env l : ∀ s x, x ∉ l →
  let '(_, s') := start_components env l s in
  components s' !! x = components s !! x ∧ context s' !! x = context s !! x.
Proof.
  induction l as [|name rest IH]; intros s x Hx; simpl; [done|].
  destruct (components s !! name) as [c|] eqn:Hc; [|done].
  destruct (dependency_context (components s) name (GetDependencies c) ∅) as [ctx|e]; [|done].
  destruct (Component_Start env c ctx (log s)) as [[out c'] tr].
  assert (x ≠ name) as Hne by set_solver.
  destruct out as [v|e]; simpl.
  - specialize (IH (MkSystem (<[name := c']> (components s)) (sys_started s)
      (<[name := v]> (context s)) tr) x ltac:(set_solver)).
    destruct (start_components env rest _) as [err s']. simpl in IH.
    rewrite !lookup_insert_ne in IH by congruence. done.
  - rewrite lookup_insert_ne by congruence. done.
Qed.

Lemma start_components_fresh env l : ∀ s, NoDup l →
  let '(err, s') := start_components env l s in
  err = None → ∀ x c, x ∈ l → components s !! x = Some c → started c = false →
  ∃ ctx tr v, lc_start env (instance c) ctx tr = StartOk v ∧
    components s' !! x = Some (MkComponent (key c) (instance c) (dependencies c) (Some v) true) ∧
    context s' !! x = Some v.
Proof.
  induction l as [|name rest IH]; intros s Hnd; simpl; [set_solver|].
  apply NoDup_cons in Hnd as [Hname Hnd].
  destruct (components s !! name) as [c0|] eqn:Hc0; [|discriminate].
  destruct (dependency_context (components s) name (GetDependencies c0) ∅) as [ctx|e]; [|discriminate].
  unfold Component_Start. destruct (started c0) eqn:Hst0.
  - simpl. rewrite (insert_id _ _ _ Hc0).
    specialize (IH (MkSystem (components s) (sys_started s) (<[name := instance c0]> (context s)) (log s)) Hnd).
    destruct (start_components env rest _) as [err s']. intros Herr x c Hx Hc Hst.
    apply elem_of_cons in Hx as [->|Hx]; [congruence|]. by apply IH.
  - destruct (lc_start env (instance c0) ctx (log s)) as [v|e0] eqn:Hout; simpl; [|discriminate].
    set (c0' := MkComponent (key c0) (instance c0) (dependencies c0) (Some v) true).
    set (s1 := MkSystem (<[name := c0']> (components s)) (sys_started s) (<[name := v]> (context s))
      (log s ++ [EvStart (key c0) (instance c0) ctx (StartOk v)])).
    pose proof (start_components_frame env rest s1 name Hname) as Hfr.
    specialize (IH s1 Hnd).
    destruct (start_components env rest s1) as [err s']. intros Herr x c Hx Hc Hst.
    apply elem_of_cons in Hx as [->|Hx].
    + rewrite Hc in Hc0. injection Hc0 as ->. destruct Hfr as [Hf1 Hf2].
      exists ctx, (log s), v. split_and!; [done| |].
      * rewrite Hf1. simpl. apply lookup_insert_eq.
      * rewrite Hf2. simpl. apply lookup_insert_eq.
    + apply IH; [done|done| |done]. simpl. rewrite lookup_insert_ne; [done|].
      intros ->. by apply Hname.
Qed.

(** Starting a system whose records are all un-started, with lifecycles
    that start whenever they get their exact dependency context. *)
Lemma start_fresh_run env it s :
  let g := dep_graph (components s) in
  sys_started s = false → wf_keys (components s) →
  map_Forall (fun _ c => started c = false) (components s) →
  iter_ok g it → deps_registered g → ¬ has_cycle g →
  (∀ n c ctx tr e, components s !! n = Some c → ctx_exact (components s) c ctx →
     lc_start env (instance c) ctx tr ≠ StartErr e) →
  ∃ l, getOrderedComponents g (it_edges it) (it_seed it) = inl l ∧
  let '(err, s') := System_Start env it s in
  err = None ∧ sys_started s' = true ∧
  (∃ evs, log s' = log s ++ evs ∧ start_keys evs = l ∧ Forall (fun ev => is_start_ok ev = true) evs) ∧
  (∀ x c, components s !! x = Some c →
     ∃ ctx tr v, lc_start env (instance c) ctx tr = StartOk v ∧
       components s' !! x = Some (MkComponent (key c) (instance c) (dependencies c) (Some v) true) ∧
       context s' !! x = Some v) ∧
  (∀ x, components s !! x = None → context s' !! x = context s !! x) ∧
  same_shape (components s) (components s').
Proof.
  intros g Hs Hwf Hfresh Hit Hreg Hnc Henv.
  pose proof (check_none_of_acyclic g it Hit Hnc) as Hc.
  destruct Hit as (Hic & Hie & His).
  destruct (getOrdered_complete g _ _ Hie His Hreg Hnc) as [l Hl].
  destruct (getOrdered_topo g _ _ l Hie His Hl) as (_ & Hp & Hnd & Htop).
  exists l. split; [done|].
  unfold System_Start. rewrite Hs. fold g. rewrite Hc, Hl.
  assert (∀ x, x ∈ l → x ∈ dom (components s)) as Hdom by (intros x; by rewrite perm_keys_dom).
  pose proof (start_run env l s Hnd Hwf Hdom (topological_start_premise _ _ _ Htop)) as Hsr.
  pose proof (start_components_events env l s) as Hev.
  pose proof (start_components_fresh env l s Hnd) as Hres.
  assert (∀ x, x ∉ l → let '(_, s') := start_components env l s in
    components s' !! x = components s !! x ∧ context s' !! x = context s !! x) as Hfr
    by (intros x; apply start_components_frame).
  destruct (start_components env l s) as [err s'].
  destruct Hsr as (_ & Hsh' & [(-> & evs & Hlog & Hok & Hkeys & _)|
    (pre & B & post & cB & ctx & e0 & evs & _ & _ & _ & Hlc & _ & Hlog & _)]).
  2:{ exfalso. destruct Hev as (_ & _ & evs0 & Hlog0 & Hall).
      rewrite Hlog in Hlog0. apply app_inv_head in Hlog0. subst evs0.
      apply Forall_app in Hall as [_ Hlast]. apply Forall_cons in Hlast as [Hlast _].
      destruct Hlast as (k & c & ctx' & out & Hk & Heq & Hex). injection Heq as _ Hi -> _.
      rewrite Hi in Hlc. by apply (Henv k c ctx' (log s ++ evs) e0). }
  simpl. split_and!; [done|done| | | |done].
  - exists evs. split_and!; [done| |done]. rewrite Hkeys. apply filter_all.
    intros x _. unfold started_in. destruct (components s !! x) as [c|] eqn:Hx; [|done].
    by apply (Hfresh x c).
  - intros x c Hx. apply (Hres eq_refl x c); [|done|by apply (Hfresh x c)].
    apply (perm_keys_dom _ l x Hp). by apply elem_of_dom.
  - intros x Hx. assert (x ∉ l) as Hxl.
    { rewrite (perm_keys_dom _ l x Hp). by apply not_elem_of_dom. }
    specialize (Hfr x Hxl). by destruct Hfr.
Qed.

(** X6: start a freshly created system whose records are stored under
    their keys, when all dependencies are registered and acyclic, and every
    lifecycle [Start] succeeds when given its exact dependency context.
    Then [System.Start]:
    - returns [nil] and marks the system started;
    - calls the lifecycle [Start] of every component once, in the
      computed order, and every call succeeds;
    - leaves every record started with the result of its call cached;
    - stores that result in the context under the component's name, and
      adds no other name to the context. *)
Theorem System_Start_fresh env it m :
  let g := dep_graph m in
  wf_keys m → map_Forall (fun _ c => started c = false) m →
  iter_ok g it → deps_registered g → ¬ has_cycle g →
  (∀ n c ctx tr e, m !! n = Some c → ctx_exact m c ctx → lc_start env (instance c) ctx tr ≠ StartErr e) →
  ∃ l, getOrderedComponents g (it_edges it) (it_seed it) = inl l ∧
  let '(err, s') := System_Start env it (CreateSystem m) in
  err = None ∧ sys_started s' = true ∧
  start_keys (log s') = l ∧ Forall (fun ev => is_start_ok ev = true) (log s') ∧
  (∀ x c, m !! x = Some c →
     ∃ ctx tr v, lc_start env (instance c) ctx tr = StartOk v ∧
       components s' !! x = Some (MkComponent (key c) (instance c) (dependencies c) (Some v) true) ∧
       context s' !! x = Some v) ∧
  (∀ x, m !! x = None → context s' !! x = None).
Proof.
  intros g Hwf Hfresh Hit Hreg Hnc Henv.
  destruct (start_fresh_run env it (CreateSystem m) eq_refl Hwf Hfresh Hit Hreg Hnc Henv)
    as (l & Hl & Hrun).
  exists l. split; [done|].
  destruct (System_Start env it (CreateSystem m)) as [err s'].
  destruct Hrun as (-> & Hs & (evs & Hlog & Hkeys & Hok) & Hres & Hnone & _).
  simpl in Hlog. subst. split_and!; done.
Qed.

(** The lifecycles of the demo start whenever they get their exact
    dependency context. *)
Lemma demo_env_ok stop n c ctx tr e :
  demo !! n = Some c → ctx_exact demo c ctx → lc_start (env_demo stop) (instance c) ctx tr ≠ StartErr e.
Proof.
  intros Hn [_ Hctx]. unfold demo in Hn.
  repeat (rewrite lookup_insert in Hn; case_decide; [injection Hn as <-|]);
    [done|done| |by rewrite lookup_empty in Hn].
  simpl. unfold httpserver_start. unfold Lifecycle in *.
  rewrite (Hctx "config"), (Hctx "app_routes").
  vm_compute. discriminate.
Qed.

Lemma System_Start_fresh_witness :
  let g := dep_graph demo in
  let it := MkIter ["http_server"; "config"; "app_routes"] ["config"; "http_server"; "app_routes"]
                   ["app_routes"; "http_server"; "config"] in
  (wf_keys demo ∧ map_Forall (fun _ c => started c = false) demo ∧
   iter_ok g it ∧ deps_registered g ∧ ¬ has_cycle g ∧
   (∀ n c ctx tr e, demo !! n = Some c → ctx_exact demo c ctx →
      lc_start (env_demo (fun _ _ _ => None)) (instance c) ctx tr ≠ StartErr e)) ∧
  ∃ l, getOrderedComponents g (it_edges it) (it_seed it) = inl l ∧
  let '(err, s') := System_Start (env_demo (fun _ _ _ => None)) it (CreateSystem demo) in
  err = None ∧ sys_started s' = true ∧
  start_keys (log s') = l ∧ Forall (fun ev => is_start_ok ev = true) (log s') ∧
  (∀ x c, demo !! x = Some c →
     ∃ ctx tr v, lc_start (env_demo (fun _ _ _ => None)) (instance c) ctx tr = StartOk v ∧
       components s' !! x = Some (MkComponent (key c) (instance c) (dependencies c) (Some v) true) ∧
       context s' !! x = Some v) ∧
  (∀ x, demo !! x = None → context s' !! x = None).
Proof.
  intros g it.
  assert (wf_keys demo) as H1
    by (unfold wf_keys; apply (bool_decide_unpack _); vm_compute; reflexivity).
  assert (map_Forall (fun _ c => started c = false) demo) as H2
    by (apply (bool_decide_unpack _); vm_compute; reflexivity).
  assert (iter_ok g it) as H3 by (split_and!; vm_compute; solve_Permutation).
  assert (deps_registered g) as H4
    by (apply deps_registered_alt; apply (bool_decide_unpack _); vm_compute; reflexivity).
  assert (¬ has_cycle g) as H5.
  { apply (check_none_no_cycle g demo_names); [vm_compute; solve_Permutation|].
    vm_compute. reflexivity. }
  pose proof (demo_env_ok (fun _ _ _ => None)) as H6.
  split; [split_and!; assumption|].
  exact (System_Start_fresh (env_demo (fun _ _ _ => None)) it demo H1 H2 H3 H4 H5 H6).
Defined.

(** ** The context across Start and Stop *)

Lemma stop_components_context env l : ∀ s last,
  context (stop_components env l s last).2 = context s.
Proof.
  induction l as [|name rest IH]; intros s last; simpl; [done|].
  destruct (components s !! name) as [c|]; [|done].
  destruct (Component_Stop env c (context s) (log s)) as [[err c'] tr].
  by rewrite IH.
Qed.

Lemma start_components_context env l : ∀ s x,
  is_Some (context s !! x) → is_Some (context (start_components env l s).2 !! x).
Proof.
  induction l as [|name rest IH]; intros s x Hx; simpl; [done|].
  destruct (components s !! name) as [c|]; [|done].
  destruct (dependency_context (components s) name (GetDependencies c) ∅) as [ctx|e]; [|done].
  destruct (Component_Start env c ctx (log s)) as [[[v|e] c'] tr]; simpl; [|done].
  apply IH. simpl. rewrite lookup_insert. case_decide; [done|done].
Qed.

(** X7: [System.Stop] never changes the system context, so [GetContext]
    still returns the values of the stopped components; and
    [System.Start] never removes an entry from it. *)
Theorem context_kept env it s :
  context (System_Stop env it s).2 = context s ∧
  ∀ x, is_Some (context s !! x) → is_Some (context (System_Start env it s).2 !! x).
Proof.
  split.
  - unfold System_Stop. destruct (negb (sys_started s)); [done|].
    destruct (getOrderedComponents _ _ _) as [l|e]; [|done].
    pose proof (stop_components_context env (reverse l) s None) as H.
    destruct (stop_components env (reverse l) s None) as [err s']. done.
  - intros x Hx. unfold System_Start. destruct (sys_started s); [done|].
    destruct (checkCyclicDependencies _ _); [done|].
    destruct (getOrderedComponents _ _ _) as [l|e]; [|done].
    pose proof (start_components_context env l s x Hx) as H.
    destruct (start_components env l s) as [[e|] s']; done.
Qed.

(** ** A clean Stop, then a Start *)

Lemma last_stop_error_none last evs :
  last_stop_error last evs = None → last = None ∧ stop_failures evs = [].
Proof.
  revert last. induction evs as [|ev evs IH]; intros last H; [done|].
  destruct ev as [k ? ? ?|k ? ? [e|]]; simpl in *.
  - by apply IH.
  - destruct (IH _ H) as [? _]. discriminate.
  - by apply IH.
Qed.

(** X8: stop a started system reached from a creation. When [System.Stop]
    returns [nil]:
    - every record is un-started and the system is not started;
    - every record keeps its key, instance and dependencies.
    A later [System.Start], with lifecycles that start when given their
    exact dependency context, then succeeds and calls the lifecycle
    [Start] of every component again, once each, in its computed order. *)
Theorem clean_stop_restart env1 env2 it1 it2 m0 s s1 :
  wf_keys m0 → reachable m0 s → sys_started s = true →
  iter_ok (dep_graph (components s)) it1 → iter_ok (dep_graph (components s)) it2 →
  System_Stop env1 it1 s = (None, s1) →
  (∀ n c ctx tr e, components s1 !! n = Some c → ctx_exact (components s1) c ctx →
     lc_start env2 (instance c) ctx tr ≠ StartErr e) →
  sys_started s1 = false ∧ (∀ x c, components s1 !! x = Some c → started c = false) ∧
  same_shape m0 (components s1) ∧
  ∃ l, getOrderedComponents (dep_graph m0) (it_edges it2) (it_seed it2) = inl l ∧
  let '(err2, s2) := System_Start env2 it2 s1 in
  err2 = None ∧ sys_started s2 = true ∧
  ∃ evs, log s2 = log s1 ++ evs ∧ start_keys evs = l ∧ Forall (fun ev => is_start_ok ev = true) evs.
Proof.
  intros Hwf0 Hr Hs Hit1 Hit2 Hstop Henv.
  destruct (reachable_inv m0 s Hwf0 Hr) as [Hsh Hst].
  destruct (Hst Hs) as (Hreg & Hnc & Hall).
  assert (dep_graph m0 = dep_graph (components s)) as Hg by (by apply same_shape_dep_graph).
  assert (wf_keys (components s)) as Hwf by (by apply (same_shape_wf_keys m0)).
  rewrite Hg in Hreg, Hnc |- *.
  set (g := dep_graph (components s)) in *.
  assert (∀ x, x ∈ dom (components s) → started_in (components s) x = true) as Hall'
    by (intros x Hx; apply Hall; by apply (same_shape_dom _ _ Hsh)).
  destruct Hit1 as (Hic1 & Hie1 & His1).
  destruct (getOrdered_complete g _ _ Hie1 His1 Hreg Hnc) as [l1 Hl1].
  destruct (getOrdered_topo g _ _ l1 Hie1 His1 Hl1) as (_ & Hp1 & Hnd1 & _).
  unfold System_Stop in Hstop. rewrite Hs in Hstop. simpl in Hstop. fold g in Hstop.
  rewrite Hl1 in Hstop.
  assert (∀ x, x ∈ reverse l1 → x ∈ dom (components s)) as Hdom1
    by (intros x; by rewrite elem_of_reverse, perm_keys_dom).
  assert (NoDup (reverse l1)) as Hndr by (by rewrite reverse_Permutation).
  pose proof (stop_run env1 (reverse l1) s None Hndr Hwf Hdom1) as Hrun.
  destruct (stop_components env1 (reverse l1) s None) as [err s'].
  injection Hstop as -> <-.
  destruct Hrun as (_ & Hctx & Hsh1 & evs & Hlog & Hkeys & Hform & Herr & Hcomp). simpl in *.
  destruct (last_stop_error_none None evs (eq_sym Herr)) as [_ Hnf].
  rewrite filter_all in Hkeys by (intros x Hx; apply Hall'; by apply Hdom1).
  assert (Forall (fun ev => ∃ k self ctx out, ev = EvStop k self ctx out) evs) as Hstops.
  { eapply Forall_impl; [exact Hform|]. intros ev (c0 & out & _ & ->). eauto. }
  assert (∀ x c, components s' !! x = Some c → started c = false) as Hoff.
  { intros x c Hx.
    destruct (same_shape_lookup _ _ x c (same_shape_sym _ _ Hsh1) Hx) as (c0 & Hc0 & _).
    assert (x ∈ map ev_key evs) as Hxk
      by (rewrite Hkeys, elem_of_reverse, (perm_keys_dom _ _ _ Hp1); by apply elem_of_dom).
    destruct (stop_keys_split evs x Hstops Hxk) as [Hok|Hfx]; [|rewrite Hnf in Hfx; set_solver].
    rewrite (Hcomp x c0 Hc0), decide_True in Hx by done. by injection Hx as <-. }
  assert (same_shape m0 (components s')) as Hsh0 by (by apply (same_shape_trans _ (components s))).
  split_and!; [done|done|done|].
  assert (dep_graph (components s') = g) as Hg1 by (symmetry; by apply same_shape_dep_graph).
  assert (wf_keys (components s')) as Hwf1 by (by apply (same_shape_wf_keys (components s))).
  set (s1 := MkSystem (components s') false (context s') (log s')).
  assert (iter_ok (dep_graph (components s1)) it2) as Hit2' by (simpl; by rewrite Hg1).
  assert (map_Forall (fun _ c => started c = false) (components s1)) as Hfresh
    by (intros x c Hx; by apply (Hoff x c)).
  assert (deps_registered (dep_graph (components s1))) as Hreg1 by (simpl; by rewrite Hg1).
  assert (¬ has_cycle (dep_graph (components s1))) as Hnc1 by (simpl; by rewrite Hg1).
  destruct (start_fresh_run env2 it2 s1 eq_refl Hwf1 Hfresh Hit2' Hreg1 Hnc1 Henv)
    as (l & Hl & Hrun2).
  exists l. split; [simpl in Hl; by rewrite Hg1 in Hl|].
  destruct (System_Start env2 it2 s1) as [err2 s2].
  destruct Hrun2 as (-> & Hs2 & Hevs & _). done.
Qed.

Lemma clean_stop_restart_witness :
  let s := (System_Start env_ok (it_of abc_names) (CreateSystem abc)).2 in
  let r := System_Stop env_ok (it_of abc_names) s in
  (wf_keys abc ∧ reachable abc s ∧ sys_started s = true ∧
   iter_ok (dep_graph (components s)) (it_of abc_names) ∧
   System_Stop env_ok (it_of abc_names) s = (None, r.2) ∧
   (∀ n c ctx tr e, components r.2 !! n = Some c → ctx_exact (components r.2) c ctx →
      lc_start env_ok (instance c) ctx tr ≠ StartErr e)) ∧
  sys_started r.2 = false ∧ (∀ x c, components r.2 !! x = Some c → started c = false) ∧
  same_shape abc (components r.2) ∧
  ∃ l, getOrderedComponents (dep_graph abc) abc_names abc_names = inl l ∧
  let '(err2, s2) := System_Start env_ok (it_of abc_names) r.2 in
  err2 = None ∧ sys_started s2 = true ∧
  ∃ evs, log s2 = log r.2 ++ evs ∧ start_keys evs = l ∧ Forall (fun ev => is_start_ok ev = true) evs.
Proof.
  intros s r.
  assert (wf_keys abc) as H1
    by (unfold wf_keys; apply (bool_decide_unpack _); vm_compute; reflexivity).
  assert (iter_ok (dep_graph (components (CreateSystem abc))) (it_of abc_names)) as H0
    by (split_and!; vm_compute; solve_Permutation).
  assert (reachable abc s) as H2
    by exact (reach_start abc env_ok (it_of abc_names) (CreateSystem abc) (reach_init abc) H0).
  assert (sys_started s = true) as H3 by (vm_compute; reflexivity).
  assert (iter_ok (dep_graph (components s)) (it_of abc_names)) as H4
    by (split_and!; vm_compute; solve_Permutation).
  assert (System_Stop env_ok (it_of abc_names) s = (None, r.2)) as H5 by (vm_compute; reflexivity).
  assert (∀ n c ctx tr e, components r.2 !! n = Some c → ctx_exact (components r.2) c ctx →
      lc_start env_ok (instance c) ctx tr ≠ StartErr e) as H6
    by (intros n c ctx tr e _ _; simpl; discriminate).
  split; [split_and!; assumption|].
  exact (clean_stop_restart env_ok env_ok (it_of abc_names) (it_of abc_names) abc s r.2
           H1 H2 H3 H4 H4 H5 H6).
Defined.

(** ** The demo program *)

Lemma env_demo_value stop self ctx tr v :
  lc_start (env_demo stop) self ctx tr = StartOk v → v = self.
Proof.
  simpl. case_decide as Hs; [|congruence]. subst. unfold httpserver_start.
  destruct (ctx !! "config"); [|discriminate]. destruct (ctx !! "app_routes"); [|discriminate].
  repeat case_decide; congruence.
Qed.

Lemma demo_order g e s l :
  g = dep_graph demo → e ≡ₚ keys g → s ≡ₚ keys g → getOrderedComponents g e s = inl l →
  l = demo_names.
Proof.
  intros -> He Hs Hl.
  destruct (getOrdered_inl _ e s l He Hs Hl) as (_ & _ & Hgr).
  assert (getOrderedComponents (dep_graph demo) demo_names demo_names = inl demo_names) as H0
    by (vm_compute; reflexivity).
  assert (demo_names ≡ₚ keys (dep_graph demo)) as Hp by (vm_compute; solve_Permutation).
  destruct (getOrdered_inl _ _ _ _ Hp Hp H0) as (_ & _ & Hgr0).
  by apply (lex_greedy_unique (dep_graph demo) []).
Qed.

(** X9: the run of [main] in cmd/demo, whatever the orders of the map
    ranges and whatever the lifecycle [Stop] calls return.
    [System.Start] succeeds and starts [app_routes], [config] and
    [http_server], in this order. The checks of [HttpServer.Start] all
    pass, and the context maps each name to its own lifecycle object.
    [System.Stop] then calls the lifecycle [Stop] of [http_server],
    [config] and [app_routes], in this order, and marks the system not
    started. *)
Theorem demo_main stop it1 it2 :
  iter_ok (dep_graph demo) it1 → iter_ok (dep_graph demo) it2 →
  let '(err1, s1) := System_Start (env_demo stop) it1 (CreateSystem demo) in
  err1 = None ∧ sys_started s1 = true ∧
  start_keys (log s1) = ["app_routes"; "config"; "http_server"] ∧
  Forall (fun ev => is_start_ok ev = true) (log s1) ∧
  context s1 = <["config" := 1]> (<["app_routes" := 2]> {["http_server" := 3]}) ∧
  let '(_, s2) := System_Stop (env_demo stop) it2 s1 in
  sys_started s2 = false ∧
  ∃ evs, log s2 = log s1 ++ evs ∧ map ev_key evs = ["http_server"; "config"; "app_routes"].
Proof.
  intros Hit1 Hit2.
  assert (wf_keys demo) as Hwf
    by (unfold wf_keys; apply (bool_decide_unpack _); vm_compute; reflexivity).
  assert (map_Forall (fun _ c => started c = false) demo) as Hfresh
    by (apply (bool_decide_unpack _); vm_compute; reflexivity).
  assert (deps_registered (dep_graph demo)) as Hreg
    by (apply deps_registered_alt; apply (bool_decide_unpack _); vm_compute; reflexivity).
  assert (¬ has_cycle (dep_graph demo)) as Hnc.
  { apply (check_none_no_cycle _ demo_names); [vm_compute; solve_Permutation|].
    vm_compute. reflexivity. }
  destruct (start_fresh_run (env_demo stop) it1 (CreateSystem demo) eq_refl Hwf Hfresh Hit1 Hreg Hnc
    (demo_env_ok stop)) as (l & Hl & Hrun).
  assert (l = demo_names) as ->
    by (destruct Hit1 as (_ & He & Hs); by apply (demo_order _ _ _ l eq_refl He Hs)).
  destruct (System_Start (env_demo stop) it1 (CreateSystem demo)) as [err1 s1].
  destruct Hrun as (-> & Hs1 & (evs & Hlog & Hkeys & Hok) & Hres & Hnone & Hsh).
  simpl in Hlog. subst evs.
  assert (∀ x, context s1 !! x = instance <$> demo !! x) as Hctx.
  { intros x. destruct (demo !! x) as [c|] eqn:Hx.
    - destruct (Hres x c Hx) as (ctx & tr & v & Hv & _ & ->).
      by rewrite (env_demo_value _ _ _ _ _ Hv).
    - by rewrite Hnone. }
  assert (∀ x, x ∈ dom (components s1) → started_in (components s1) x = true) as Hon.
  { intros x Hx. apply (same_shape_dom _ _ Hsh) in Hx. simpl in Hx.
    apply elem_of_dom in Hx as [c Hx]. destruct (Hres x c Hx) as (ctx & tr & v & _ & Hc & _).
    by rewrite (started_in_lookup _ _ _ Hc). }
  split_and!; [done|done|done|done| |].
  { apply map_eq. intros x. rewrite Hctx, <- lookup_fmap.
    assert (instance <$> demo = <["config" := 1]> (<["app_routes" := 2]> {["http_server" := 3]}))
      as -> by (vm_compute; reflexivity).
    reflexivity. }
  assert (dep_graph (components s1) = dep_graph demo) as Hg
    by (symmetry; by apply same_shape_dep_graph).
  assert (wf_keys (components s1)) as Hwf1 by (by apply (same_shape_wf_keys demo)).
  unfold System_Stop. rewrite Hs1. simpl. rewrite Hg.
  destruct Hit2 as (Hic2 & Hie2 & His2).
  destruct (getOrdered_complete _ _ _ Hie2 His2 Hreg Hnc) as [l2 Hl2].
  rewrite Hl2. pose proof (demo_order _ _ _ l2 eq_refl Hie2 His2 Hl2) as ->.
  assert (∀ x, x ∈ reverse demo_names → x ∈ dom (components s1)) as Hdom.
  { intros x Hx. apply (same_shape_dom _ _ Hsh). simpl.
    rewrite elem_of_reverse in Hx. rewrite <- dep_graph_dom.
    apply (iter_perm_elem _ demo_names); [vm_compute; solve_Permutation|done]. }
  assert (NoDup (reverse demo_names)) as Hnd by (vm_compute; repeat constructor; set_solver).
  pose proof (stop_run (env_demo stop) (reverse demo_names) s1 None Hnd Hwf1 Hdom) as Hst.
  destruct (stop_components (env_demo stop) (reverse demo_names) s1 None) as [err2 s2].
  destruct Hst as (_ & _ & _ & evs & Hlog2 & Hkeys2 & _). simpl.
  split; [done|]. exists evs. split; [done|].
  rewrite Hkeys2, filter_all; [reflexivity|]. intros x Hx. by apply Hon, Hdom.
Qed.

Lemma demo_main_witness :
  let it1 := MkIter ["http_server"; "config"; "app_routes"] ["config"; "http_server"; "app_routes"]
                    ["app_routes"; "http_server"; "config"] in
  let it2 := MkIter ["config"; "app_routes"; "http_server"] ["http_server"; "app_routes"; "config"]
                    ["config"; "http_server"; "app_routes"] in
  let stop := fun self (_ : Context) (_ : list event) =>
                if decide (self = 3) then Some (ErrLifecycle 7) else None in
  (iter_ok (dep_graph demo) it1 ∧ iter_ok (dep_graph demo) it2) ∧
  let '(err1, s1) := System_Start (env_demo stop) it1 (CreateSystem demo) in
  err1 = None ∧ sys_started s1 = true ∧
  start_keys (log s1) = ["app_routes"; "config"; "http_server"] ∧
  Forall (fun ev => is_start_ok ev = true) (log s1) ∧
  context s1 = <["config" := 1]> (<["app_routes" := 2]> {["http_server" := 3]}) ∧
  let '(_, s2) := System_Stop (env_demo stop) it2 s1 in
  sys_started s2 = false ∧
  ∃ evs, log s2 = log s1 ++ evs ∧ map ev_key evs = ["http_server"; "config"; "app_routes"].
Proof.
  intros it1 it2 stop.
  assert (iter_ok (dep_graph demo) it1) as H1 by (split_and!; vm_compute; solve_Permutation).
  assert (iter_ok (dep_graph demo) it2) as H2 by (split_and!; vm_compute; solve_Permutation).
  split; [split; assumption|]. exact (demo_main stop it1 it2 H1 H2).
Defined.
